(** * clean_nexus_snapshots: retention of timestamped SNAPSHOT components

    A shallow embedding of [clean_nexus_snapshots.py] and the properties
    of its version parser, remote client, retention planner and cleanup
    job.

    Modelling conventions.
    - A Python [str] is a [string]; every character is a code point below
      256, so the regular-expression class [\d] is exactly ['0'..'9'].
    - A Python [int] is a [Z]; [int(s)] on a run of decimal digits is its
      decimal value, and raises [ValueError] when the run is longer than
      the interpreter's limit on the digits of a conversion (4300 unless
      reconfigured).
    - A call that may raise returns an [outcome]: [Return v] or [Raise e].
    - The remote repository, the clock and the passing of time are an
      abstract [World] threaded through every effectful call; what the
      program does to the world is recorded in a trace of events. *)

From Stdlib Require Import List ZArith String Ascii Lia Bool.
From Stdlib Require Import Permutation Sorted.
Import ListNotations.

Open Scope string_scope.
Open Scope list_scope.
Open Scope Z_scope.

(* ================================================================= *)
(** ** Python values: exceptions and outcomes *)

(** A response of the HTTP layer: the status code and the decoded body.
    The body is kept abstract in the type parameter until the component
    listing is defined. *)
Record Response (B : Type) := mkResponse {
  status_code : Z;
  body : B
}.
Arguments mkResponse {B} _ _.
Arguments status_code {B} _.
Arguments body {B} _.

(** [requests.exceptions.RequestException]: either raised by
    [session.request] itself (connection refused, timeout, ...) or by
    [response.raise_for_status()] for a 4xx/5xx status. *)
Inductive RequestException :=
| TransportError (detail : string)
| HTTPError (status : Z).

(** The exceptions the program can meet.  [NexusAPIError] is the
    program's own class; it records the attempt count of its message and
    the exception it was raised from. *)
Inductive exn :=
| ValueError
| AttributeError
| JSONDecodeError
| NexusAPIError (attempts : Z) (cause : RequestException).

Inductive outcome (A : Type) :=
| Return (a : A)
| Raise (e : exn).
Arguments Return {A} _.
Arguments Raise {A} _.

(* ================================================================= *)
(** ** Strings, digits and [int] *)

Definition is_digit (c : ascii) : bool :=
  ((48 <=? nat_of_ascii c) && (nat_of_ascii c <=? 57))%nat.

Definition newline : ascii := "010"%char.

Definition is_newline (c : ascii) : bool := Ascii.eqb c newline.

Definition digit_value (c : ascii) : Z := Z.of_nat (nat_of_ascii c) - 48.

Fixpoint all_digits (s : string) : bool :=
  match s with
  | EmptyString => true
  | String c s' => is_digit c && all_digits s'
  end.

Fixpoint no_newline (s : string) : bool :=
  match s with
  | EmptyString => true
  | String c s' => negb (is_newline c) && no_newline s'
  end.

Fixpoint int_acc (acc : Z) (s : string) : Z :=
  match s with
  | EmptyString => acc
  | String c s' => int_acc (10 * acc + digit_value c) s'
  end.

(** The decimal value of a run of digits. *)
Definition decimal (s : string) : Z := int_acc 0 s.

Definition slen (s : string) : nat := String.length s.
Arguments slen : simpl never.

(** [sys.int_info.default_max_str_digits]: the most digits [int] converts
    from a string. *)
Definition int_max_str_digits : Z := 4300.

(** [int(s)] for [s] a run of decimal digits: the decimal value, or
    [ValueError] when [s] has more digits than the limit; leading zeros
    count. *)
Definition int (s : string) : outcome Z :=
  if Z.of_nat (slen s) <=? int_max_str_digits then Return (decimal s)
  else Raise ValueError.

(* ================================================================= *)
(** ** SNAPSHOT_PATTERN = ^(.*?)-(\d{8}\.\d{6})-(\d+)$ *)

Module Regex.

(** A literal character. *)
Definition lit (c : ascii) (s : string) : option string :=
  match s with
  | String c' s' => if Ascii.eqb c c' then Some s' else None
  | EmptyString => None
  end.

(** [\d{n}]: exactly [n] digits; returns the digits and what follows. *)
Fixpoint digits_n (n : nat) (s : string) : option (string * string) :=
  match n with
  | O => Some ("", s)
  | S n' =>
      match s with
      | String c s' =>
          if is_digit c then
            match digits_n n' s' with
            | Some (d, r) => Some (String c d, r)
            | None => None
            end
          else None
      | EmptyString => None
      end
  end.

(** The longest run of digits at the head of [s], and what follows. *)
Fixpoint span_digits (s : string) : string * string :=
  match s with
  | String c s' =>
      if is_digit c then
        let (d, r) := span_digits s' in (String c d, r)
      else ("", s)
  | EmptyString => ("", "")
  end.

(** [$] without MULTILINE: at the end of the string, or just before a
    line feed that is the last character of the string. *)
Definition at_dollar (s : string) : bool :=
  match s with
  | EmptyString => true
  | String c EmptyString => is_newline c
  | String _ (String _ _) => false
  end.

(** [(\d+)$]: the greedy run followed by [$].  Giving back digits cannot
    help: what would then follow is a digit, where [$] fails. *)
Definition digits_plus_dollar (s : string) : option string :=
  let (d, r) := span_digits s in
  match d with
  | EmptyString => None
  | String _ _ => if at_dollar r then Some d else None
  end.

(** [-(\d{8}\.\d{6})-(\d+)$]: everything after group 1; returns groups
    2 and 3. *)
Definition after_base (s : string) : option (string * string) :=
  match lit "-" s with
  | None => None
  | Some s1 =>
  match digits_n 8 s1 with
  | None => None
  | Some (d8, s2) =>
  match lit "." s2 with
  | None => None
  | Some s3 =>
  match digits_n 6 s3 with
  | None => None
  | Some (d6, s4) =>
  match lit "-" s4 with
  | None => None
  | Some s5 =>
  match digits_plus_dollar s5 with
  | None => None
  | Some b => Some ((d8 ++ "." ++ d6)%string, b)
  end end end end end end.

(** [^(.*?)...]: the lazy group tries the shortest base first and grows
    it by one character, never a line feed, each time the rest of the
    pattern fails. *)
Fixpoint lazy_base (base : string) (s : string)
  : option (string * string * string) :=
  match after_base s with
  | Some (g2, g3) => Some (base, g2, g3)
  | None =>
      match s with
      | String c s' =>
          if is_newline c then None
          else lazy_base (base ++ String c "")%string s'
      | EmptyString => None
      end
  end.

End Regex.

(** [SNAPSHOT_PATTERN.match(version_str)]: [None], or the three groups. *)
Definition SNAPSHOT_PATTERN (version_str : string)
  : option (string * string * string) :=
  Regex.lazy_base "" version_str.

(* ================================================================= *)
(** ** datetime and strptime *)

(** A naive [datetime]; the microsecond is always 0 for this format and
    is left out. *)
Record datetime := mk_datetime {
  year : Z; month : Z; day : Z;
  hour : Z; minute : Z; second : Z
}.

Definition is_leap (y : Z) : bool :=
  (y mod 4 =? 0) && (negb (y mod 100 =? 0) || (y mod 400 =? 0)).

Definition days_in_month (y m : Z) : Z :=
  if (m =? 2) && is_leap y then 29
  else nth (Z.to_nat m) [0; 31; 28; 31; 30; 31; 30; 31; 31; 30; 31; 30; 31] 0.

Definition in_range (lo hi v : Z) : bool := (lo <=? v) && (v <=? hi).

(** What the format's own pattern accepts on two-digit fields:
    [%m] 01..12, [%d] 01..31, [%H] 00..23, [%M] 00..59, [%S] 00..61. *)
Definition format_accepts (m d H M S : Z) : bool :=
  in_range 1 12 m && in_range 1 31 d &&
  in_range 0 23 H && in_range 0 59 M && in_range 0 61 S.

(** What the [date] and [datetime] constructors accept. *)
Definition date_accepts (y m d : Z) : bool :=
  in_range 1 9999 y && in_range 1 12 m && in_range 1 (days_in_month y m) d.

Definition time_accepts (H M S : Z) : bool :=
  in_range 0 23 H && in_range 0 59 M && in_range 0 59 S.

(** [datetime.strptime(s, '%Y%m%d.%H%M%S')] on the strings group 2 can
    be: eight digits, a dot, six digits.  With that many digits every
    field of the format takes its full width, at most four digits, whose
    conversion is [decimal].  Any other string is refused. *)
Definition strptime (s : string) : outcome datetime :=
  let Y := substring 0 4 s in
  let m := substring 4 2 s in
  let d := substring 6 2 s in
  let H := substring 9 2 s in
  let M := substring 11 2 s in
  let S := substring 13 2 s in
  if (slen s =? 15)%nat
     && all_digits (substring 0 8 s)
     && String.eqb (substring 8 1 s) "."
     && all_digits (substring 9 6 s)
  then
    if format_accepts (decimal m) (decimal d) (decimal H) (decimal M)
                      (decimal S) then
      if date_accepts (decimal Y) (decimal m) (decimal d) then
        if time_accepts (decimal H) (decimal M) (decimal S) then
          Return (mk_datetime (decimal Y) (decimal m) (decimal d)
                              (decimal H) (decimal M) (decimal S))
        else Raise ValueError
      else Raise ValueError
    else Raise ValueError
  else Raise ValueError.

(* ================================================================= *)
(** ** parse_snapshot_version *)

Definition parse_snapshot_version (version_str : string)
  : outcome (option (string * datetime * Z)) :=
  match SNAPSHOT_PATTERN version_str with
  | Some (g1, g2, g3) =>
      let base_version := (g1 ++ "-SNAPSHOT")%string in
      let timestamp_str := g2 in
      match int g3 with
      | Raise e => Raise e
      | Return build_number =>
          match strptime timestamp_str with
          | Return dt_obj =>
              Return (Some (base_version, dt_obj, build_number))
          | Raise ValueError => Return None
          | Raise e => Raise e
          end
      end
  | None => Return None
  end.

(* ================================================================= *)
(** ** Sorting: list.sort(key=..., reverse=True) *)

Definition lex (c1 c2 : comparison) : comparison :=
  match c1 with Eq => c2 | _ => c1 end.

(** Comparison of naive datetimes: field by field, most significant
    first. *)
Definition datetime_compare (a b : datetime) : comparison :=
  lex (year a ?= year b)
 (lex (month a ?= month b)
 (lex (day a ?= day b)
 (lex (hour a ?= hour b)
 (lex (minute a ?= minute b)
      (second a ?= second b))))).

(** The sort key is the tuple [(x["datetime"], x["build"])]; tuples
    compare lexicographically. *)
Definition sort_key_t : Type := datetime * Z.

Definition key_compare (a b : sort_key_t) : comparison :=
  lex (datetime_compare (fst a) (fst b)) (snd a ?= snd b).

Definition key_le (a b : sort_key_t) : bool :=
  match key_compare a b with Gt => false | _ => true end.

Section Sort.
Context {A : Type} (key : A -> sort_key_t).

(** Stable insertion: [x] comes from an earlier position than every
    element of [l], so it goes before the elements with an equal key. *)
Fixpoint insert (x : A) (l : list A) : list A :=
  match l with
  | [] => [x]
  | y :: l' =>
      if key_le (key x) (key y) then x :: y :: l' else y :: insert x l'
  end.

Definition sort_ascending (l : list A) : list A := fold_right insert [] l.

(** With [reverse=True] the list is reversed, sorted ascending and
    reversed again, which keeps elements with equal keys in their
    original order. *)
Definition list_sort (reverse : bool) (l : list A) : list A :=
  if reverse then rev (sort_ascending (rev l)) else sort_ascending l.
End Sort.

(** [l[i:]] with Python's treatment of negative and oversized indices. *)
Definition slice_from {A : Type} (i : Z) (l : list A) : list A :=
  let n := Z.of_nat (List.length l) in
  let start := if i <? 0 then Z.max 0 (i + n) else Z.min i n in
  skipn (Z.to_nat start) l.

(** [d.setdefault(k, []).append(v)] on an insertion-ordered dict: a new
    key goes to the end, a known key keeps its place. *)
Fixpoint setdefault_append {K V : Type} (eqb : K -> K -> bool)
         (k : K) (v : V) (d : list (K * list V)) : list (K * list V) :=
  match d with
  | [] => [(k, [v])]
  | (k', vs) :: d' =>
      if eqb k k' then (k', vs ++ [v]) :: d'
      else (k', vs) :: setdefault_append eqb k v d'
  end.

(* ================================================================= *)
(** ** Data of the cleanup pass *)

(** A component record of the listing: id, group, name, version. *)
Record Component := mkComponent {
  comp_id : string;
  group : string;
  name : string;
  version : string
}.

(** One member of a version branch:
    [{"component": comp, "datetime": dt_obj, "build": build_number}]. *)
Record snapshot := mkSnapshot {
  component : Component;
  dt_obj : datetime;
  build : Z
}.

Definition sort_key (x : snapshot) : sort_key_t := (dt_obj x, build x).

(** A decoded page of the listing.  [items] is absent when the JSON
    object has no such key.  Bodies that decode are taken to be objects
    whose items are well-formed component records. *)
Record Page := mkPage {
  items : option (list Component);
  continuationToken : option string
}.

(** [None]: the body is not valid JSON. *)
Definition Body : Type := option Page.

Record Request := mkRequest {
  method : string;
  url : string;
  auth : string * string;
  params : list (string * string)
}.

(** What one [session.request] call does: answer, or raise a
    [RequestException]. *)
Inductive attempt :=
| Answer (response : Response Body)
| Failure (detail : string).

Inductive log_level := INFO | WARNING | ERROR.

Inductive log_msg :=
| LogRetry (attempt_no : Z) (e : RequestException) (delay : Z)
| LogFetching
| LogFetchingPage (page_num : Z)
| LogFound (n : nat) (page_num : Z) (total : nat)
| LogEndOfPages
| LogFetchFailed (e : exn)
| LogFinished (total : nat)
| LogArtifacts (n : nat)
| LogArtifact (group name : string)
| LogBranch (base_version : string) (n : nat)
| LogMarking (n : nat)
| LogDeleted (version : string)
| LogDeleteFailed (e : exn)
| LogStart
| LogCleanupError (e : exn)
| LogCompleted (status : string).

(** The trace of a run.  [EvCall] and [EvReturned] are ghost events:
    they mark entry to and normal return from [delete_component] and
    correspond to no output of the program. *)
Inductive event :=
| EvRequest (req : Request) (res : attempt)
| EvSleep (seconds : Z)
| EvLog (level : log_level) (msg : log_msg)
| EvCall (c : Component)
| EvReturned (c : Component) (ok : bool).

Record Config := mkConfig {
  nexus_url : string;
  username : string;
  password : string;
  repository : string;
  retain_count : Z;
  dry_run : bool;
  max_retries : Z;
  retry_delay : Z
}.

(** The process-wide run record read by the health endpoint. *)
Record RunRecord := mkRunRecord {
  last_run_time : option string;
  last_run_status : string
}.

Definition initial_record : RunRecord := mkRunRecord None "never_run".

(* ================================================================= *)
(** ** Effects *)

Section Effects.
Variable World : Type.

(** A computation reads and changes the world, emits events, and
    returns or raises. *)
Definition M (A : Type) : Type := World -> outcome A * World * list event.

Definition ret {A} (a : A) : M A := fun w => (Return a, w, []).

Definition raise {A} (e : exn) : M A := fun w => (Raise e, w, []).

Definition bind {A B} (m : M A) (f : A -> M B) : M B :=
  fun w =>
    match m w with
    | (Return a, w1, t1) =>
        let '(r, w2, t2) := f a w1 in (r, w2, t1 ++ t2)
    | (Raise e, w1, t1) => (Raise e, w1, t1)
    end.

Definition emit (e : event) : M unit := fun w => (Return tt, w, [e]).

Definition log (l : log_level) (m : log_msg) : M unit := emit (EvLog l m).

Definition lift {A} (o : outcome A) : M A := fun w => (o, w, []).

(** [try: body except <classes>: handler]: [handler e] is [None] for
    the exceptions the clause does not name. *)
Definition try_except {A} (body : M A) (handler : exn -> option (M A))
  : M A :=
  fun w =>
    match body w with
    | (Raise e, w1, t1) =>
        match handler e with
        | Some h => let '(r, w2, t2) := h w1 in (r, w2, t1 ++ t2)
        | None => (Raise e, w1, t1)
        end
    | r => r
    end.
End Effects.

Arguments ret {World A} _ _.
Arguments raise {World A} _ _.
Arguments bind {World A B} _ _ _.
Arguments emit {World} _ _.
Arguments log {World} _ _ _.
Arguments lift {World A} _ _.
Arguments try_except {World A} _ _ _.

Notation "x <- m ;; k" := (bind m (fun x => k))
  (at level 61, m at next level, right associativity).
Notation "m ;;; k" := (bind m (fun _ => k))
  (at level 61, right associativity).

(** [for x in l: acc = f(acc, x)], stopping at the first exception. *)
Fixpoint foldM {World A B : Type} (f : B -> A -> M World B)
         (l : list A) (b : B) : M World B :=
  match l with
  | [] => ret b
  | x :: l' => b' <- f b x ;; foldM f l' b'
  end.

(* ================================================================= *)
(** ** The shape of a timestamped version, in the specification's words *)

(** The end of a version string as [$] sees it: nothing, or one final
    line feed. *)
Definition line_end (nl : string) : Prop :=
  nl = "" \/ nl = String newline "".

(** [<base>-<8-digit-date>.<6-digit-time>-<integer build>]. *)
Definition pattern_form (s base d8 d6 b : string) : Prop :=
  s = (base ++ "-" ++ d8 ++ "." ++ d6 ++ "-" ++ b)%string /\
  all_digits d8 = true /\ slen d8 = 8%nat /\
  all_digits d6 = true /\ slen d6 = 6%nat /\
  all_digits b = true /\ b <> "".

(** The same, as the compiled pattern reads it: the base holds no line
    feed and one line feed may follow the build number. *)
Definition timestamped_form (s base d8 d6 b nl : string) : Prop :=
  pattern_form (base ++ "-" ++ d8 ++ "." ++ d6 ++ "-" ++ b) base d8 d6 b /\
  s = (base ++ "-" ++ d8 ++ "." ++ d6 ++ "-" ++ b ++ nl)%string /\
  no_newline base = true /\
  line_end nl.



(** A version is within the limit of [int] when it does not match the
    pattern or its build number has at most [int_max_str_digits]
    digits. *)
Definition within_int_limit (version_str : string) : bool :=
  match SNAPSHOT_PATTERN version_str with
  | Some (_, _, g3) => Z.of_nat (slen g3) <=? int_max_str_digits
  | None => true
  end.

(** Every version of [comps] is within the limit of [int]. *)
Definition all_within_int_limit (comps : list Component) : bool :=
  forallb (fun c => within_int_limit (version c)) comps.

(** The calendar reading of the date and time digits: year 1..9999,
    month 1..12, a day that exists in that month, hour 0..23, minute and
    second 0..59. *)
Definition calendar (d8 d6 : string) : option datetime :=
  let Y := decimal (substring 0 4 d8) in
  let m := decimal (substring 4 2 d8) in
  let d := decimal (substring 6 2 d8) in
  let H := decimal (substring 0 2 d6) in
  let M := decimal (substring 2 2 d6) in
  let S := decimal (substring 4 2 d6) in
  if date_accepts Y m d && time_accepts H M S
  then Some (mk_datetime Y m d H M S)
  else None.

(* ================================================================= *)
(** ** Example data: a configuration, components, remote repositories *)

(** The defaults of the environment, with a retention of two. *)
Definition example_cfg : Config :=
  mkConfig "http://nexus:8081" "admin" "admin123" "maven-snapshots"
           2 false 3 5.

Definition dry_cfg : Config :=
  mkConfig "http://nexus:8081" "admin" "admin123" "maven-snapshots"
           2 true 3 5.

Definition no_attempt_cfg : Config :=
  mkConfig "http://nexus:8081" "admin" "admin123" "maven-snapshots"
           2 false 0 5.

(** Artifact app:lib with three timestamped builds of 1.0-SNAPSHOT and
    one plain snapshot. *)
Definition lib1 : Component :=
  mkComponent "id1" "app" "lib" "1.0-20240101.010000-1".
Definition lib2 : Component :=
  mkComponent "id2" "app" "lib" "1.0-20240102.010000-2".
Definition lib3 : Component :=
  mkComponent "id3" "app" "lib" "1.0-20240103.010000-3".
Definition lib_plain : Component :=
  mkComponent "id4" "app" "lib" "1.0-SNAPSHOT".

Definition snap1 : snapshot := mkSnapshot lib1 (mk_datetime 2024 1 1 1 0 0) 1.
Definition snap2 : snapshot := mkSnapshot lib2 (mk_datetime 2024 1 2 1 0 0) 2.
Definition snap3 : snapshot := mkSnapshot lib3 (mk_datetime 2024 1 3 1 0 0) 3.

(** A remote repository that answers every request with one status and
    an empty body. *)
Definition always (status : Z) (req : Request) (w : unit) : attempt * unit :=
  (Answer (mkResponse status None), w).

(** A remote repository that plays a script: one outcome per attempt,
    and connection failures once the script is over. *)
Definition scripted (req : Request) (w : list attempt)
  : attempt * list attempt :=
  match w with
  | a :: w' => (a, w')
  | [] => (Failure "connection refused", [])
  end.

Definition no_time {W : Type} (seconds : Z) (w : W) : W := w.

Definition clock {W : Type} (w : W) : string := "2024-01-20T03:00:00".

Definition one_page (l : list Component) : attempt :=
  Answer (mkResponse 200 (Some (mkPage (Some l) None))).

Definition page_with_token (l : list Component) (token : string) : attempt :=
  Answer (mkResponse 200 (Some (mkPage (Some l) (Some token)))).

Definition status_only (status : Z) : attempt :=
  Answer (mkResponse status None).

(** A version that ends with a line feed, and one whose base holds a
    line feed. *)
Definition version_with_final_newline : string :=
  ("1.0-20240115.083045-7" ++ String newline "")%string.

Definition version_with_newline_in_base : string :=
  ("a" ++ String newline "b-20240115.083045-7")%string.




Definition writable {W : Type} (w : W) : bool := true.

Definition one_gigabyte_free {W : Type} (w : W) : Z := 1024 * 1024 * 1024.

(** A build number of one digit more than [int] converts, a version
    that carries it, and the same with an empty base. *)
Definition long_build : string :=
  string_of_list_ascii
    (repeat "1"%char (Z.to_nat (int_max_str_digits + 1))).

Definition long_version : string :=
  ("1.0-20240115.083045-" ++ long_build)%string.

Definition long_version_empty_base : string :=
  ("-20240115.083045-" ++ long_build)%string.

Definition lib_long : Component :=
  mkComponent "id5" "app" "lib" long_version.


(* ================================================================= *)
(** ** The program *)

Definition key_eqb (a b : string * string) : bool :=
  String.eqb (fst a) (fst b) && String.eqb (snd a) (snd b).

(** Truth value of a continuation token: [None] and [""] are false. *)
Definition truthy (t : option string) : bool :=
  match t with
  | Some (String _ _) => true
  | _ => false
  end.

(** [response.raise_for_status()] raises for 4xx and 5xx. *)
Definition is_error_status (s : Z) : bool := (400 <=? s) && (s <? 600).

(** State of the pagination loop. *)
Record fetch_state := mkFetch {
  all_components : list Component;
  continuation_token : option string;
  page_num : Z
}.

(** How one iteration of the pagination loop ends. *)
Inductive page_result :=
| NextPage (st : fetch_state)
| LastPage (all : list Component)
| FetchFailed.

Section Program.
Variable World : Type.

(** [session.request(method, url, timeout=60, **kwargs)]. *)
Variable session_request : Request -> World -> attempt * World.

(** What [time.sleep(seconds)] does to the world. *)
Variable time_passes : Z -> World -> World.

(** [datetime.now().isoformat()]. *)
Variable now_isoformat : World -> string.

(** The configuration read from the environment at start-up. *)
Variable cfg : Config.

Definition request (req : Request) : M World attempt :=
  fun w =>
    let (a, w') := session_request req w in
    (Return a, w', [EvRequest req a]).

(** [time.sleep] refuses a negative length. *)
Definition sleep (seconds : Z) : M World unit :=
  fun w =>
    if seconds <? 0 then (Raise ValueError, w, [])
    else (Return tt, time_passes seconds w, [EvSleep seconds]).

(** *** make_api_request *)

(** The loop [for attempt in range(max_retries)], with [remaining]
    iterations left.  Falling off the end of the loop returns [None]. *)
Fixpoint attempts (remaining : nat) (attempt : Z) (req : Request)
  : M World (option (Response Body)) :=
  match remaining with
  | O => ret None
  | S remaining' =>
      let on_exception (e : RequestException) :=
        if attempt <? max_retries cfg - 1 then
          log WARNING (LogRetry (attempt + 1) e (retry_delay cfg)) ;;;
          sleep (retry_delay cfg) ;;;
          attempts remaining' (attempt + 1) req
        else
          raise (NexusAPIError (max_retries cfg) e) in
      a <- request req ;;
      match a with
      | Answer response =>
          if status_code response =? 204 then ret (Some response)
          else if is_error_status (status_code response)
               then on_exception (HTTPError (status_code response))
               else ret (Some response)
      | Failure detail => on_exception (TransportError detail)
      end
  end.

Definition make_api_request (method url : string)
           (auth : string * string) (params : list (string * string))
  : M World (option (Response Body)) :=
  attempts (Z.to_nat (max_retries cfg)) 0 (mkRequest method url auth params).

(** *** get_all_components_paginated *)

Definition components_url : string :=
  (nexus_url cfg ++ "/service/rest/v1/components")%string.

Definition page_params (continuation_token : option string)
  : list (string * string) :=
  [("repository", repository cfg); ("version", "*-SNAPSHOT")] ++
  match continuation_token with
  | Some (String c t) => [("continuationToken", String c t)]
  | _ => []
  end.

(** [response.json()]: on [None] an [AttributeError], on a body that
    is not JSON a [JSONDecodeError]. *)
Definition json (response : option (Response Body)) : M World Page :=
  match response with
  | None => raise AttributeError
  | Some r =>
      match body r with
      | None => raise JSONDecodeError
      | Some data => ret data
      end
  end.

(** One iteration of [while True]. *)
Definition fetch_page (st : fetch_state) : M World page_result :=
  let params := page_params (continuation_token st) in
  try_except
    (log INFO (LogFetchingPage (page_num st)) ;;;
     response <- make_api_request "GET" components_url
                   (username cfg, password cfg) params ;;
     data <- json response ;;
     let items :=
       match items data with Some l => l | None => [] end in
     let all_components := all_components st ++ items in
     log INFO (LogFound (List.length items) (page_num st)
                        (List.length all_components)) ;;;
     let continuation_token := continuationToken data in
     if negb (truthy continuation_token) then
       log INFO LogEndOfPages ;;;
       ret (LastPage all_components)
     else
       ret (NextPage (mkFetch all_components continuation_token
                              (page_num st + 1))))
    (fun e =>
       match e with
       | NexusAPIError _ _ | JSONDecodeError =>
           Some (log ERROR (LogFetchFailed e) ;;; ret FetchFailed)
       | _ => None
       end).

(** The loop itself; [None] when [fuel] iterations were not enough. *)
Fixpoint fetch_loop (fuel : nat) (st : fetch_state) (w : World)
  : option (outcome (option (list Component)) * World * list event) :=
  match fuel with
  | O => None
  | S fuel' =>
      match fetch_page st w with
      | (Return (NextPage st'), w1, t1) =>
          match fetch_loop fuel' st' w1 with
          | Some (r, w2, t2) => Some (r, w2, t1 ++ t2)
          | None => None
          end
      | (Return (LastPage all), w1, t1) =>
          Some (Return (Some all), w1,
                t1 ++ [EvLog INFO (LogFinished (List.length all))])
      | (Return FetchFailed, w1, t1) => Some (Return None, w1, t1)
      | (Raise e, w1, t1) => Some (Raise e, w1, t1)
      end
  end.

Definition initial_fetch : fetch_state := mkFetch [] None 1.

Definition get_all_components_paginated (fuel : nat) (w : World)
  : option (outcome (option (list Component)) * World * list event) :=
  match fetch_loop fuel initial_fetch w with
  | Some (r, w', t) => Some (r, w', EvLog INFO LogFetching :: t)
  | None => None
  end.

(** *** delete_component *)

Definition delete_url (component : Component) : string :=
  (nexus_url cfg ++ "/service/rest/v1/components/"
             ++ comp_id component)%string.

Definition delete_component (component : Component) : M World bool :=
  emit (EvCall component) ;;;
  ok <- try_except
          (response <- make_api_request "DELETE" (delete_url component)
                         (username cfg, password cfg) [] ;;
           match response with
           | None => raise AttributeError
           | Some response =>
               if status_code response =? 204 then
                 log INFO (LogDeleted (version component)) ;;;
                 ret true
               else ret false
           end)
          (fun e =>
             match e with
             | NexusAPIError _ _ =>
                 Some (log ERROR (LogDeleteFailed e) ;;; ret false)
             | _ => None
             end) ;;
  emit (EvReturned component ok) ;;;
  ret ok.

(** *** process_snapshots *)

(** The loop that fills [artifacts]. *)
Definition group_artifacts (components : list Component)
  : list ((string * string) * list Component) :=
  fold_left
    (fun artifacts comp =>
       setdefault_append key_eqb (group comp, name comp) comp artifacts)
    components [].

(** The loop that fills [version_branches] for one artifact. *)
Definition group_branches (comps : list Component)
  : M World (list (string * list snapshot)) :=
  foldM
    (fun version_branches comp =>
       parsed <- lift (parse_snapshot_version (version comp)) ;;
       match parsed with
       | Some (base_version, dt_obj, build_number) =>
           ret (setdefault_append String.eqb base_version
                  (mkSnapshot comp dt_obj build_number) version_branches)
       | None => ret version_branches
       end)
    comps [].

(** The body of [for item in to_delete]. *)
Definition delete_item (success : bool) (item : snapshot) : M World bool :=
  let comp_to_delete := component item in
  if negb (dry_run cfg) then
    ok <- delete_component comp_to_delete ;;
    if negb ok then ret false else ret success
  else ret success.

(** The body of [for base_version, snapshots in version_branches.items()]. *)
Definition process_branch (success : bool)
           (branch : string * list snapshot) : M World bool :=
  let (base_version, snapshots) := branch in
  log INFO (LogBranch base_version (List.length snapshots)) ;;;
  let snapshots := list_sort sort_key true snapshots in
  if Z.of_nat (List.length snapshots) >? retain_count cfg then
    let to_delete := slice_from (retain_count cfg) snapshots in
    log INFO (LogMarking (List.length to_delete)) ;;;
    foldM delete_item to_delete success
  else ret success.

(** The body of [for (group, name), comps in artifacts.items()]. *)
Definition process_artifact (success : bool)
           (artifact : (string * string) * list Component) : M World bool :=
  let '((group, name), comps) := artifact in
  log INFO (LogArtifact group name) ;;;
  version_branches <- group_branches comps ;;
  foldM process_branch version_branches success.

Definition process_snapshots (components : list Component) : M World bool :=
  match components with
  | [] => ret true
  | _ :: _ =>
      let artifacts := group_artifacts components in
      log INFO (LogArtifacts (List.length artifacts)) ;;;
      foldM process_artifact artifacts true
  end.

(** *** cleanup_job *)

(** The [try] block: the status it assigns, or the exception that
    leaves it. *)
Definition cleanup_try (fuel : nat) (w : World)
  : option (outcome string * World * list event) :=
  match get_all_components_paginated fuel w with
  | None => None
  | Some (Return (Some components), w1, t1) =>
      match process_snapshots components w1 with
      | (Return true, w2, t2) => Some (Return "success", w2, t1 ++ t2)
      | (Return false, w2, t2) =>
          Some (Return "partial_failure", w2, t1 ++ t2)
      | (Raise e, w2, t2) => Some (Raise e, w2, t1 ++ t2)
      end
  | Some (Return None, w1, t1) => Some (Return "failed", w1, t1)
  | Some (Raise e, w1, t1) => Some (Raise e, w1, t1)
  end.

(** One pass.  [None] when the pagination loop needs more fuel. *)
Definition cleanup_job (fuel : nat) (record : RunRecord) (w : World)
  : option (RunRecord * World * list event) :=
  let started := now_isoformat w in
  match cleanup_try fuel w with
  | None => None
  | Some (Return status, w1, t1) =>
      Some (mkRunRecord (Some started) status, w1,
            EvLog INFO LogStart :: t1 ++ [EvLog INFO (LogCompleted status)])
  | Some (Raise e, w1, t1) =>
      Some (mkRunRecord (Some started) "failed", w1,
            EvLog INFO LogStart :: t1
              ++ [EvLog ERROR (LogCleanupError e);
                  EvLog INFO (LogCompleted "failed")])
  end.

(** *** The retention plan, read off the code *)

(** What [group_branches] computes when no parse raises. *)
Definition version_branches (comps : list Component)
  : list (string * list snapshot) :=
  fold_left
    (fun branches comp =>
       match parse_snapshot_version (version comp) with
       | Return (Some (base_version, dt_obj, build_number)) =>
           setdefault_append String.eqb base_version
             (mkSnapshot comp dt_obj build_number) branches
       | _ => branches
       end)
    comps [].

(** The [to_delete] list of one branch ([[]] when the branch is not
    longer than [retain_count]). *)
Definition to_delete (snapshots : list snapshot) : list snapshot :=
  let sorted := list_sort sort_key true snapshots in
  if Z.of_nat (List.length sorted) >? retain_count cfg
  then slice_from (retain_count cfg) sorted
  else [].

(** The kept members of one branch, in the specification's words: the
    first [retain_count] elements after sorting. *)
Definition keep (snapshots : list snapshot) : list snapshot :=
  firstn (Z.to_nat (retain_count cfg)) (list_sort sort_key true snapshots).

(** All branches of all artifacts, in the order the loops visit them. *)
Definition all_branches (components : list Component)
  : list (string * list snapshot) :=
  flat_map (fun artifact => version_branches (snd artifact))
           (group_artifacts components).

(** The components marked for deletion, in the order the loops reach
    them. *)
Definition deletion_candidates (components : list Component)
  : list Component :=
  flat_map (fun branch => map component (to_delete (snd branch)))
           (all_branches components).

(** The sizes the loops announce with "Marking n for deletion.": one
    for each branch longer than [retain_count]. *)
Definition announced (components : list Component) : list nat :=
  flat_map
    (fun branch =>
       if Z.of_nat (List.length (snd branch)) >? retain_count cfg
       then [List.length (to_delete (snd branch))]
       else [])
    (all_branches components).

(** The state and world after [k] pages were fetched and each of them
    named a next page. *)
Fixpoint pages (k : nat) (st : fetch_state) (w : World)
  : option (fetch_state * World) :=
  match k with
  | O => Some (st, w)
  | S k' =>
      match fetch_page st w with
      | (Return (NextPage st'), w1, _) => pages k' st' w1
      | _ => None
      end
  end.

(** *** Reading a trace *)

(** The [RequestException] that an attempt's outcome raises inside the
    [try] of [make_api_request], if any. *)
Definition request_exception (a : attempt) : option RequestException :=
  match a with
  | Failure detail => Some (TransportError detail)
  | Answer response =>
      if status_code response =? 204 then None
      else if is_error_status (status_code response)
           then Some (HTTPError (status_code response))
           else None
  end.

Fixpoint intersperse {A : Type} (sep : A) (l : list A) : list A :=
  match l with
  | [] => []
  | [x] => [x]
  | x :: l' => x :: sep :: intersperse sep l'
  end.

Fixpoint last_opt {A : Type} (l : list A) : option A :=
  match l with
  | [] => None
  | [x] => Some x
  | _ :: l' => last_opt l'
  end.

Definition is_log (e : event) : bool :=
  match e with EvLog _ _ => true | _ => false end.

Definition is_delete_request (e : event) : bool :=
  match e with
  | EvRequest req _ => String.eqb (method req) "DELETE"
  | _ => false
  end.

Definition is_request (e : event) : bool :=
  match e with EvRequest _ _ => true | _ => false end.

Definition is_http (e : event) : bool :=
  match e with EvRequest _ _ | EvSleep _ => true | _ => false end.

(** Components handed to [delete_component]. *)
Fixpoint delete_calls (t : list event) : list Component :=
  match t with
  | [] => []
  | EvCall c :: t' => c :: delete_calls t'
  | _ :: t' => delete_calls t'
  end.

(** What [delete_component] returned, call by call. *)
Fixpoint delete_results (t : list event) : list (Component * bool) :=
  match t with
  | [] => []
  | EvReturned c ok :: t' => (c, ok) :: delete_results t'
  | _ :: t' => delete_results t'
  end.

(** The sizes announced by "Marking n for deletion." *)
Fixpoint marked (t : list event) : list nat :=
  match t with
  | [] => []
  | EvLog INFO (LogMarking n) :: t' => n :: marked t'
  | _ :: t' => marked t'
  end.

(** The outcomes of the attempts made, in order. *)
Fixpoint attempt_results (t : list event) : list attempt :=
  match t with
  | [] => []
  | EvRequest _ a :: t' => a :: attempt_results t'
  | _ :: t' => attempt_results t'
  end.



(* =============================================================== *)
(** ** Strings *)

Lemma sapp_assoc (a b c : string) :
  ((a ++ b) ++ c = a ++ (b ++ c))%string.
Proof. induction a as [|x a IH]; simpl; [reflexivity | now rewrite IH]. Qed.

Lemma sapp_nil_r (a : string) : (a ++ "")%string = a.
Proof. induction a as [|x a IH]; simpl; [reflexivity | now rewrite IH]. Qed.

Lemma slen_app (a b : string) :
  slen (a ++ b) = (slen a + slen b)%nat.
Proof.
  unfold slen. induction a as [|x a IH]; simpl; [reflexivity | now rewrite IH].
Qed.

Lemma slen_cons (c : ascii) (a : string) : slen (String c a) = S (slen a).
Proof. reflexivity. Qed.

Lemma slen_nil : slen "" = 0%nat.
Proof. reflexivity. Qed.

Lemma no_newline_app (a b : string) :
  no_newline (a ++ b) = no_newline a && no_newline b.
Proof.
  induction a as [|x a IH]; simpl; [reflexivity|].
  rewrite IH. now rewrite andb_assoc.
Qed.

(** Two splittings of one string: the longer prefix extends the
    shorter one. *)
Lemma sapp_eq_split (q p s1 s2 : string) :
  (p ++ s1 = q ++ s2)%string -> (slen q <= slen p)%nat ->
  exists u, p = (q ++ u)%string /\ s2 = (u ++ s1)%string.
Proof.
  revert p. induction q as [|c q IH]; intros p E L.
  - exists p. simpl in *. now split.
  - destruct p as [|c' p]; [simpl in L; unfold slen in L; simpl in L; lia|].
    simpl in E. injection E as -> E.
    destruct (IH p E) as [u [-> ->]].
    + unfold slen in *. simpl in L. lia.
    + exists u. now split.
Qed.

Lemma digit_not_dash : is_digit "-" = false.
Proof. reflexivity. Qed.

Lemma digit_not_newline (c : ascii) :
  is_digit c = true -> is_newline c = false.
Proof.
  unfold is_newline. destruct (Ascii.eqb_spec c newline) as [->|]; [|reflexivity].
  discriminate.
Qed.

(** A run of digits, with the line end after it, holds no dash. *)
Lemma digits_hold_no_dash (b nl y z : string) :
  all_digits b = true -> line_end nl ->
  (b ++ nl)%string <> (y ++ String "-" z)%string.
Proof.
  intros Hb Hnl. revert y. induction b as [|c b IH]; intros y E.
  - simpl in E. destruct Hnl as [-> | ->].
    + destruct y; discriminate.
    + destruct y as [|c y]; [discriminate|].
      simpl in E. injection E as _ E. destruct y; discriminate.
  - simpl in Hb. apply andb_prop in Hb as [Hc Hb].
    destruct y as [|c' y]; simpl in E; injection E as -> E.
    + rewrite digit_not_dash in Hc. discriminate.
    + exact (IH Hb y E).
Qed.

(* =============================================================== *)
(** ** The compiled pattern *)

Lemma lit_some (c : ascii) (s r : string) :
  Regex.lit c s = Some r <-> s = String c r.
Proof.
  unfold Regex.lit. destruct s as [|c' s]; [split; discriminate|].
  destruct (Ascii.eqb_spec c c') as [->|N]; split; intro H.
  - now injection H as ->.
  - injection H as ->. reflexivity.
  - discriminate.
  - injection H as -> _. now elim N.
Qed.

Lemma digits_n_sound (n : nat) (s d r : string) :
  Regex.digits_n n s = Some (d, r) ->
  s = (d ++ r)%string /\ all_digits d = true /\ slen d = n.
Proof.
  revert s d r. induction n as [|n IH]; intros s d r H; simpl in H.
  - injection H as <- <-. now repeat split.
  - destruct s as [|c s]; [discriminate|].
    destruct (is_digit c) eqn:Hc; [|discriminate].
    destruct (Regex.digits_n n s) as [[d' r']|] eqn:E; [|discriminate].
    injection H as <- <-. destruct (IH _ _ _ E) as [-> [Hd Hl]].
    simpl. rewrite Hc, Hd. unfold slen in *. simpl. now rewrite Hl.
Qed.

Lemma digits_n_complete (d r : string) :
  all_digits d = true -> Regex.digits_n (slen d) (d ++ r) = Some (d, r).
Proof.
  induction d as [|c d IH]; intro H; simpl in *.
  - reflexivity.
  - apply andb_prop in H as [Hc Hd]. rewrite Hc. fold (slen d).
    now rewrite (IH Hd).
Qed.

Lemma span_digits_sound (s d r : string) :
  Regex.span_digits s = (d, r) ->
  s = (d ++ r)%string /\ all_digits d = true.
Proof.
  revert d r. induction s as [|c s IH]; intros d r H; simpl in H.
  - injection H as <- <-. now split.
  - destruct (is_digit c) eqn:Hc.
    + destruct (Regex.span_digits s) as [d' r'] eqn:E.
      injection H as <- <-. destruct (IH _ _ eq_refl) as [-> Hd].
      simpl. now rewrite Hc, Hd.
    + injection H as <- <-. now split.
Qed.

Lemma span_digits_complete (b nl : string) :
  all_digits b = true -> line_end nl ->
  Regex.span_digits (b ++ nl) = (b, nl).
Proof.
  intros Hb Hnl. induction b as [|c b IH]; simpl in *.
  - destruct Hnl as [-> | ->]; reflexivity.
  - apply andb_prop in Hb as [Hc Hb]. now rewrite Hc, (IH Hb).
Qed.

Lemma at_dollar_line_end (r : string) :
  Regex.at_dollar r = true <-> line_end r.
Proof.
  unfold Regex.at_dollar, line_end, is_newline.
  destruct r as [|c [|c' r]].
  - split; auto.
  - destruct (Ascii.eqb_spec c newline) as [->|N].
    + split; auto.
    + split; [discriminate|].
      intros [H|H]; [discriminate | injection H as H; now elim N].
  - split; [discriminate | intros [H|H]; discriminate].
Qed.

Lemma digits_plus_dollar_sound (s b : string) :
  Regex.digits_plus_dollar s = Some b ->
  exists nl, s = (b ++ nl)%string /\ all_digits b = true /\ b <> ""
             /\ line_end nl.
Proof.
  unfold Regex.digits_plus_dollar.
  destruct (Regex.span_digits s) as [d r] eqn:E.
  destruct (span_digits_sound _ _ _ E) as [-> Hd].
  destruct d as [|c d]; [discriminate|].
  destruct (Regex.at_dollar r) eqn:Hr; [|discriminate].
  intro H; injection H as <-. exists r.
  repeat split; [assumption | discriminate | now apply at_dollar_line_end].
Qed.

Lemma digits_plus_dollar_complete (b nl : string) :
  all_digits b = true -> b <> "" -> line_end nl ->
  Regex.digits_plus_dollar (b ++ nl) = Some b.
Proof.
  intros Hb Hne Hnl. unfold Regex.digits_plus_dollar.
  rewrite (span_digits_complete _ _ Hb Hnl).
  destruct b as [|c b]; [now elim Hne|].
  apply at_dollar_line_end in Hnl. now rewrite Hnl.
Qed.

(** What [after_base] accepts. *)
Definition tail_form (t d8 d6 b nl : string) : Prop :=
  t = (String "-" (d8 ++ String "." (d6 ++ String "-" (b ++ nl))))%string /\
  all_digits d8 = true /\ slen d8 = 8%nat /\
  all_digits d6 = true /\ slen d6 = 6%nat /\
  all_digits b = true /\ b <> "" /\ line_end nl.

Lemma after_base_sound (t g2 g3 : string) :
  Regex.after_base t = Some (g2, g3) ->
  exists d8 d6 nl,
    tail_form t d8 d6 g3 nl /\ g2 = (d8 ++ "." ++ d6)%string.
Proof.
  unfold Regex.after_base. intro H.
  destruct (Regex.lit "-" t) as [s1|] eqn:E1; [|discriminate].
  destruct (Regex.digits_n 8 s1) as [[d8 s2]|] eqn:E2; [|discriminate].
  destruct (Regex.lit "." s2) as [s3|] eqn:E3; [|discriminate].
  destruct (Regex.digits_n 6 s3) as [[d6 s4]|] eqn:E4; [|discriminate].
  destruct (Regex.lit "-" s4) as [s5|] eqn:E5; [|discriminate].
  destruct (Regex.digits_plus_dollar s5) as [b|] eqn:E6; [|discriminate].
  injection H as <- <-.
  apply lit_some in E1, E3, E5.
  apply digits_n_sound in E2 as [-> [D8 L8]].
  apply digits_n_sound in E4 as [-> [D6 L6]].
  apply digits_plus_dollar_sound in E6 as [nl [-> [Db [Nb Hnl]]]].
  subst. exists d8, d6, nl. split; [|reflexivity].
  unfold tail_form. repeat split; assumption.
Qed.

Lemma after_base_complete (t d8 d6 b nl : string) :
  tail_form t d8 d6 b nl ->
  Regex.after_base t = Some ((d8 ++ "." ++ d6)%string, b).
Proof.
  intros [-> [D8 [L8 [D6 [L6 [Db [Nb Hnl]]]]]]].
  unfold Regex.after_base.
  replace (Regex.lit "-" (String "-" _)) with
    (Some (d8 ++ String "." (d6 ++ String "-" (b ++ nl)))%string)
    by reflexivity.
  rewrite <- L8, (digits_n_complete _ _ D8).
  replace (Regex.lit "." (String "." _)) with
    (Some (d6 ++ String "-" (b ++ nl))%string) by reflexivity.
  rewrite <- L6, (digits_n_complete _ _ D6).
  replace (Regex.lit "-" (String "-" _)) with (Some (b ++ nl)%string)
    by reflexivity.
  now rewrite (digits_plus_dollar_complete _ _ Db Nb Hnl).
Qed.

(** The rest of the pattern matches at one place only: a string that
    [after_base] accepts has no proper suffix that it accepts. *)
Lemma after_base_unique (c : ascii) (x rest : string) (r1 r2 : string * string) :
  Regex.after_base rest = Some r1 ->
  Regex.after_base (String c x ++ rest) = Some r2 -> False.
Proof.
  destruct r1 as [g2 g3], r2 as [g2' g3']. intros H1 H2.
  apply after_base_sound in H1 as [d8 [d6 [nl [[E1 [_ [L8 [_ [L6 [Db [_ Hnl]]]]]]] _]]]].
  apply after_base_sound in H2 as [d8' [d6' [nl' [[E2 [_ [L8' [_ [L6' [Db' [_ Hnl']]]]]]] _]]]].
  subst rest.
  assert (E : ((String c x ++ String "-" (d8 ++ String "." d6))
                ++ String "-" (g3 ++ nl)
               = String "-" (d8' ++ String "." d6')
                ++ String "-" (g3' ++ nl'))%string).
  { simpl. rewrite !sapp_assoc. simpl. rewrite !sapp_assoc. simpl.
    simpl in E2. exact E2. }
  apply sapp_eq_split in E as [u [E3 E4]].
  - assert (Lu : slen u <> 0%nat).
    { apply (f_equal slen) in E3. simpl in E3.
      repeat (rewrite slen_cons in E3 || rewrite slen_app in E3). lia. }
    destruct u as [|a u]; [now elim Lu|].
    simpl in E4. injection E4 as <- E4.
    exact (digits_hold_no_dash _ _ _ _ Db' Hnl' E4).
  - simpl. repeat (rewrite slen_cons || rewrite slen_app). lia.
Qed.

Lemma lazy_base_sound (s acc g1 g2 g3 : string) :
  Regex.lazy_base acc s = Some (g1, g2, g3) ->
  exists base rest,
    s = (base ++ rest)%string /\ g1 = (acc ++ base)%string /\
    no_newline base = true /\ Regex.after_base rest = Some (g2, g3).
Proof.
  revert acc. induction s as [|c s IH]; intros acc H; simpl in H.
  - discriminate.
  - destruct (Regex.after_base (String c s)) as [[a b]|] eqn:E.
    + injection H as <- <- <-. exists "", (String c s).
      rewrite sapp_nil_r. now repeat split.
    + destruct (is_newline c) eqn:Hc; [discriminate|].
      destruct (IH _ H) as [base [rest [-> [-> [Hb Hr]]]]].
      exists (String c base), rest. simpl. rewrite Hc, Hb.
      rewrite sapp_assoc. now repeat split.
Qed.

Lemma lazy_base_complete (base rest acc : string) (r : string * string) :
  no_newline base = true -> Regex.after_base rest = Some r ->
  Regex.lazy_base acc (base ++ rest)
  = Some ((acc ++ base)%string, fst r, snd r).
Proof.
  intros Hb Hr. revert acc. induction base as [|c base IH]; intro acc.
  - cbn [append]. rewrite sapp_nil_r.
    destruct rest as [|a rest]; [cbv in Hr; discriminate|].
    cbn [Regex.lazy_base]. rewrite Hr. now destruct r.
  - simpl in Hb. apply andb_prop in Hb as [Hc Hb].
    change ((String c base ++ rest)%string)
      with (String c (base ++ rest)%string).
    cbn [Regex.lazy_base].
    destruct (Regex.after_base (String c (base ++ rest))) as [r2|] eqn:E.
    + exfalso. exact (after_base_unique c base rest r r2 Hr E).
    + apply negb_true_iff in Hc. rewrite Hc, (IH Hb).
      rewrite sapp_assoc. reflexivity.
Qed.

(* =============================================================== *)
(** ** strptime *)

Lemma slen_S (s : string) (n : nat) :
  slen s = S n -> exists c s', s = String c s' /\ slen s' = n.
Proof.
  destruct s as [|c s]; [discriminate|].
  rewrite slen_cons. intro H. injection H as H. now exists c, s.
Qed.

Lemma slen_0 (s : string) : slen s = 0%nat -> s = "".
Proof. destruct s; [reflexivity | discriminate]. Qed.

(** Replace a string of known length by its characters. *)
Ltac explode H :=
  repeat match type of H with
         | slen ?s = S _ =>
             let c := fresh "c" in
             let s' := fresh "s" in
             let E := fresh "E" in
             apply slen_S in H as [c [s' [E H]]]; subst s
         | slen ?s = O => apply slen_0 in H; subst s
         end.

Lemma days_in_month_le (y m : Z) : days_in_month y m <= 31.
Proof.
  unfold days_in_month.
  destruct ((m =? 2) && is_leap y); [lia|].
  destruct (Z.to_nat m) as [|[|[|[|[|[|[|[|[|[|[|[|[|[|k]]]]]]]]]]]]]];
    simpl; lia.
Qed.

Lemma format_of_accepts (Y m d H M S : Z) :
  date_accepts Y m d = true -> time_accepts H M S = true ->
  format_accepts m d H M S = true.
Proof.
  unfold date_accepts, time_accepts, format_accepts, in_range.
  pose proof (days_in_month_le Y m).
  intros HD HT.
  repeat (apply andb_prop in HD as [HD ?]).
  repeat (apply andb_prop in HT as [HT ?]).
  repeat (apply andb_true_intro; split); lia.
Qed.

(** On eight digits, a dot and six digits [strptime] returns the
    calendar reading, and raises [ValueError] when there is none. *)
Lemma strptime_calendar (d8 d6 : string) :
  all_digits d8 = true -> slen d8 = 8%nat ->
  all_digits d6 = true -> slen d6 = 6%nat ->
  strptime (d8 ++ "." ++ d6)
  = match calendar d8 d6 with
    | Some dt => Return dt
    | None => Raise ValueError
    end.
Proof.
  intros D8 L8 D6 L6. explode L8. explode L6.
  unfold strptime, calendar.
  cbn [append substring slen String.length Nat.eqb].
  cbn [all_digits] in D8, D6 |- *.
  repeat (apply andb_prop in D8 as [?D D8]).
  repeat (apply andb_prop in D6 as [?D D6]).
  repeat match goal with H : is_digit _ = true |- _ => rewrite H; clear H end.
  cbn [andb String.eqb Ascii.eqb Bool.eqb].
  match goal with
  | |- context [date_accepts ?Y ?m ?d && time_accepts ?H ?M ?S] =>
      destruct (date_accepts Y m d) eqn:ED;
      destruct (time_accepts H M S) eqn:ET;
      cbn [andb];
      [ rewrite (format_of_accepts _ _ _ _ _ _ ED ET); reflexivity
      | destruct (format_accepts m d H M S); reflexivity
      | destruct (format_accepts m d H M S); reflexivity
      | destruct (format_accepts m d H M S); reflexivity ]
  end.
Qed.

(** [strptime] raises nothing but [ValueError]. *)
Lemma strptime_raises (s : string) (e : exn) :
  strptime s = Raise e -> e = ValueError.
Proof.
  unfold strptime.
  repeat match goal with
         | |- context [if ?b then _ else _] => destruct b
         end; intro H; try discriminate; now injection H.
Qed.

(* =============================================================== *)
(** ** parse_snapshot_version *)

Lemma timestamped_tail (s base d8 d6 b nl : string) :
  timestamped_form s base d8 d6 b nl ->
  s = (base ++ String "-" (d8 ++ String "." (d6 ++ String "-" (b ++ nl))))%string
  /\ tail_form (String "-" (d8 ++ String "." (d6 ++ String "-" (b ++ nl))))
               d8 d6 b nl
  /\ no_newline base = true.
Proof.
  intros [[_ [D8 [L8 [D6 [L6 [Db Nb]]]]]] [-> [Hb Hnl]]].
  split; [|split; [|exact Hb]].
  - cbn [append]. rewrite ?sapp_assoc. cbn [append].
    rewrite ?sapp_assoc. reflexivity.
  - unfold tail_form. repeat split; assumption.
Qed.

(** What the pattern captures in a string of the timestamped form. *)
Lemma pattern_groups (s base d8 d6 b nl : string) :
  timestamped_form s base d8 d6 b nl ->
  SNAPSHOT_PATTERN s = Some (base, (d8 ++ "." ++ d6)%string, b).
Proof.
  intro F. apply timestamped_tail in F as [-> [T Hb]].
  apply after_base_complete in T.
  unfold SNAPSHOT_PATTERN.
  now rewrite (lazy_base_complete _ _ "" _ Hb T).
Qed.

(** A string of the timestamped form whose build number is within the
    limit of [int] parses to its own base, calendar reading and build
    number, or to no match when the digits have no calendar reading;
    with a longer build number, [int] raises before the [try]. *)
Lemma parse_complete (s base d8 d6 b nl : string) :
  timestamped_form s base d8 d6 b nl ->
  parse_snapshot_version s
  = if Z.of_nat (slen b) <=? int_max_str_digits then
      Return match calendar d8 d6 with
             | Some dt => Some ((base ++ "-SNAPSHOT")%string, dt, decimal b)
             | None => None
             end
    else Raise ValueError.
Proof.
  intro F. pose proof F as [[_ [D8 [L8 [D6 [L6 _]]]]] _].
  unfold parse_snapshot_version.
  rewrite (pattern_groups _ _ _ _ _ _ F). unfold int.
  destruct (Z.of_nat (slen b) <=? int_max_str_digits); [|reflexivity].
  rewrite (strptime_calendar _ _ D8 L8 D6 L6).
  now destruct (calendar d8 d6).
Qed.

(** Whatever parses is of the timestamped form. *)
Lemma parse_sound (s bv : string) (dt : datetime) (n : Z) :
  parse_snapshot_version s = Return (Some (bv, dt, n)) ->
  exists base d8 d6 b nl,
    timestamped_form s base d8 d6 b nl /\ calendar d8 d6 = Some dt /\
    bv = (base ++ "-SNAPSHOT")%string /\ n = decimal b /\
    Z.of_nat (slen b) <= int_max_str_digits.
Proof.
  unfold parse_snapshot_version, SNAPSHOT_PATTERN.
  destruct (Regex.lazy_base "" s) as [[[g1 g2] g3]|] eqn:E; [|discriminate].
  apply lazy_base_sound in E as [base [rest [-> [-> [Hb Hr]]]]].
  apply after_base_sound in Hr
    as [d8 [d6 [nl [[-> [D8 [L8 [D6 [L6 [Db [Nb Hnl]]]]]]] ->]]]].
  unfold int.
  destruct (Z.of_nat (slen g3) <=? int_max_str_digits) eqn:EL;
    [|discriminate].
  rewrite (strptime_calendar _ _ D8 L8 D6 L6).
  destruct (calendar d8 d6) as [dt'|] eqn:C; [|discriminate].
  intro H. injection H as <- <- <-.
  exists base, d8, d6, g3, nl.
  unfold timestamped_form, pattern_form. cbn [append].
  apply Z.leb_le in EL.
  repeat split; assumption.
Qed.

(** The only exception that leaves [parse_snapshot_version] is the
    [ValueError] of [int], on a build number beyond the limit. *)
Lemma parse_raises (s : string) (e : exn) :
  parse_snapshot_version s = Raise e ->
  e = ValueError /\ within_int_limit s = false.
Proof.
  unfold parse_snapshot_version, within_int_limit, int.
  destruct (SNAPSHOT_PATTERN s) as [[[g1 g2] g3]|]; [|discriminate].
  destruct (Z.of_nat (slen g3) <=? int_max_str_digits).
  - destruct (strptime g2) as [dt|e'] eqn:E; [discriminate|].
    apply strptime_raises in E as ->. discriminate.
  - intro H. injection H as <-. now split.
Qed.

(** Within the limit of [int], [parse_snapshot_version] returns. *)
Lemma parse_within_limit (s : string) :
  within_int_limit s = true ->
  exists r, parse_snapshot_version s = Return r.
Proof.
  intro L. destruct (parse_snapshot_version s) as [r|e] eqn:E;
    [now exists r|].
  apply parse_raises in E as [_ E]. congruence.
Qed.

Fixpoint last_char (s : string) : option ascii :=
  match s with
  | EmptyString => None
  | String c EmptyString => Some c
  | String _ s' => last_char s'
  end.

Lemma last_char_app (y b : string) :
  b <> "" -> last_char (y ++ b) = last_char b.
Proof.
  intro Nb. induction y as [|c y IH]; [reflexivity|].
  cbn [append last_char]. rewrite IH.
  destruct (y ++ b)%string eqn:E; [|reflexivity].
  destruct y; [now elim Nb | discriminate].
Qed.

Lemma last_char_digits (b : string) :
  all_digits b = true -> b <> "" ->
  exists c, last_char b = Some c /\ is_digit c = true.
Proof.
  induction b as [|c b IH]; intros Hb Nb; [now elim Nb|].
  cbn [all_digits] in Hb. apply andb_prop in Hb as [Hc Hb].
  destruct b as [|c' b]; [now exists c|].
  destruct (IH Hb) as [x [Hx Dx]]; [discriminate|]. now exists x.
Qed.

(** A string of the published pattern ends with a digit. *)
Lemma pattern_form_last (s base d8 d6 b : string) :
  pattern_form s base d8 d6 b ->
  exists c, last_char s = Some c /\ is_digit c = true.
Proof.
  intros [-> [_ [_ [_ [_ [Db Nb]]]]]].
  replace (base ++ "-" ++ d8 ++ "." ++ d6 ++ "-" ++ b)%string
    with ((base ++ "-" ++ d8 ++ "." ++ d6 ++ "-") ++ b)%string.
  - rewrite (last_char_app _ _ Nb). now apply last_char_digits.
  - cbn [append]. rewrite ?sapp_assoc. cbn [append].
    rewrite ?sapp_assoc. cbn [append]. rewrite ?sapp_assoc. reflexivity.
Qed.

(* =============================================================== *)
(** ** The order on sort keys *)

(** Lexicographic comparison of integer lists. *)
Fixpoint list_compare (a b : list Z) : comparison :=
  match a, b with
  | [], [] => Eq
  | [], _ :: _ => Lt
  | _ :: _, [] => Gt
  | x :: a', y :: b' => lex (x ?= y) (list_compare a' b')
  end.

Definition fields (k : sort_key_t) : list Z :=
  [year (fst k); month (fst k); day (fst k);
   hour (fst k); minute (fst k); second (fst k); snd k].

Lemma key_compare_fields (a b : sort_key_t) :
  key_compare a b = list_compare (fields a) (fields b).
Proof.
  unfold key_compare, datetime_compare, fields, list_compare, lex.
  repeat match goal with
         | |- context [?x ?= ?y] => destruct (x ?= y)
         end; reflexivity.
Qed.





(* =============================================================== *)
(** ** list.sort *)

Section SortFacts.
Context {A : Type} (key : A -> sort_key_t).


Lemma insert_perm (x : A) (l : list A) :
  Permutation (x :: l) (insert key x l).
Proof.
  induction l as [|y l IH]; simpl; [reflexivity|].
  destruct (key_le (key x) (key y)); [reflexivity|].
  rewrite perm_swap. now apply perm_skip.
Qed.

Lemma sort_ascending_perm (l : list A) :
  Permutation l (sort_ascending key l).
Proof.
  induction l as [|x l IH]; simpl; [reflexivity|].
  rewrite <- insert_perm. now apply perm_skip.
Qed.






Lemma list_sort_reverse_perm (l : list A) :
  Permutation l (list_sort key true l).
Proof.
  unfold list_sort.
  rewrite <- Permutation_rev, <- sort_ascending_perm.
  apply Permutation_rev.
Qed.


Lemma list_sort_length (l : list A) :
  List.length (list_sort key true l) = List.length l.
Proof. symmetry. apply Permutation_length, list_sort_reverse_perm. Qed.
End SortFacts.


(* =============================================================== *)
(** ** Traces *)

Lemma delete_calls_app (t1 t2 : list event) :
  delete_calls (t1 ++ t2) = delete_calls t1 ++ delete_calls t2.
Proof.
  induction t1 as [|e t1 IH]; [reflexivity|].
  destruct e; simpl; now rewrite IH.
Qed.

Lemma delete_results_app (t1 t2 : list event) :
  delete_results (t1 ++ t2) = delete_results t1 ++ delete_results t2.
Proof.
  induction t1 as [|e t1 IH]; [reflexivity|].
  destruct e; simpl; now rewrite IH.
Qed.

Lemma marked_app (t1 t2 : list event) :
  marked (t1 ++ t2) = marked t1 ++ marked t2.
Proof.
  induction t1 as [|e t1 IH]; [reflexivity|].
  destruct e as [| |[] []| |]; simpl; now rewrite IH.
Qed.

Lemma attempt_results_app (t1 t2 : list event) :
  attempt_results (t1 ++ t2) = attempt_results t1 ++ attempt_results t2.
Proof.
  induction t1 as [|e t1 IH]; [reflexivity|].
  destruct e; simpl; now rewrite IH.
Qed.

(** What a trace of the HTTP layer cannot hold: ghost events and
    "Marking" lines. *)
Definition quiet (t : list event) : Prop :=
  delete_calls t = [] /\ delete_results t = [] /\ marked t = [].

(** Push the readings of a trace through its concatenations. *)
Ltac norm_trace :=
  repeat first
    [ rewrite delete_calls_app | rewrite delete_results_app
    | rewrite marked_app | rewrite attempt_results_app
    | rewrite app_nil_r | progress simpl ].

Lemma quiet_nil : quiet [].
Proof. now repeat split. Qed.

Lemma quiet_app (t1 t2 : list event) :
  quiet t1 -> quiet t2 -> quiet (t1 ++ t2).
Proof.
  intros [A1 [B1 C1]] [A2 [B2 C2]]. unfold quiet.
  now rewrite delete_calls_app, delete_results_app, marked_app,
    A1, A2, B1, B2, C1, C2.
Qed.

(* =============================================================== *)
(** ** make_api_request *)

(** What one run of the attempt loop leaves behind. *)
Definition attempts_post (remaining : nat) (req : Request)
           (res : outcome (option (Response Body)) * World * list event)
  : Prop :=
  let '(r, _, t) := res in
  let outs := attempt_results t in
  (List.length outs <= remaining)%nat /\
  filter is_http t
  = intersperse (EvSleep (retry_delay cfg)) (map (EvRequest req) outs) /\
  Forall (fun a => request_exception a <> None) (removelast outs) /\
  Forall (fun a => exists w0, fst (session_request req w0) = a) outs /\
  quiet t /\
  match last_opt outs with
  | None => remaining = O /\ r = Return None /\ t = []
  | Some a =>
      match request_exception a with
      | None => exists response, a = Answer response /\
                                 r = Return (Some response)
      | Some e => List.length outs = remaining /\
                  r = Raise (NexusAPIError (max_retries cfg) e)
      end
  end.

(** The clauses of [attempts_post] for a run of a single attempt, the
    last one left to the caller. *)
Ltac one_attempt w :=
  split; [simpl; lia|];
  split; [reflexivity|];
  split; [constructor|];
  split; [constructor; [now exists w | constructor]|];
  split; [now repeat split|].

Lemma attempts_run (req : Request) (remaining : nat) :
  0 <= retry_delay cfg ->
  forall (attempt : Z) (w : World),
    attempt + Z.of_nat remaining = max_retries cfg ->
    attempts_post remaining req (attempts remaining attempt req w).
Proof.
  intro Hd. induction remaining as [|k IH]; intros attempt w Hinv.
  - simpl. repeat split; constructor.
  - assert (Hexc : forall a e w1,
               fst (session_request req w) = a ->
               request_exception a = Some e ->
               attempts_post (S k) req
                 (let '(r, w2, t2) :=
                    (if attempt <? max_retries cfg - 1
                     then log WARNING (LogRetry (attempt + 1) e (retry_delay cfg)) ;;;
                          sleep (retry_delay cfg) ;;;
                          attempts k (attempt + 1) req
                     else raise (NexusAPIError (max_retries cfg) e)) w1
                  in (r, w2, [EvRequest req a] ++ t2))).
    { intros a e w1 Ha He.
      destruct (attempt <? max_retries cfg - 1) eqn:Elt.
      - apply Z.ltb_lt in Elt.
        unfold bind, log, emit, sleep.
        destruct (retry_delay cfg <? 0) eqn:Eneg; [lia|].
        specialize (IH (attempt + 1) (time_passes (retry_delay cfg) w1)).
        destruct (attempts k (attempt + 1) req
                    (time_passes (retry_delay cfg) w1)) as [[r w2] t2].
        assert (Hk : k <> O) by lia.
        destruct IH as [HL [HF [HA [HO [HQ HR]]]]]; [lia|].
        destruct (attempt_results t2) as [|o outs] eqn:Eo.
        { simpl in HR. destruct HR as [HR _]. now elim Hk. }
        unfold attempts_post.
        cbn [app attempt_results filter is_http]. rewrite Eo.
        change (last_opt (a :: o :: outs)) with (last_opt (o :: outs)).
        change (removelast (a :: o :: outs))
          with (a :: removelast (o :: outs)).
        cbn [map intersperse]. cbn [map] in HF.
        split; [simpl in *; lia|].
        split; [now rewrite HF|].
        split; [constructor; [congruence | exact HA]|].
        split; [constructor; [now exists w | exact HO]|].
        split; [exact HQ|].
        destruct (last_opt (o :: outs)) as [a'|].
        * destruct (request_exception a'); [|exact HR].
          destruct HR as [HR1 HR2]. split; [simpl in *; lia | exact HR2].
        * destruct HR as [HR _]. now elim Hk.
      - apply Z.ltb_ge in Elt. assert (k = O) by lia. subst k.
        unfold raise. cbn. rewrite He. one_attempt w. now split. }
    cbn [attempts]. unfold bind at 1. unfold request.
    destruct (session_request req w) as [a w1] eqn:Es.
    assert (Ha : fst (session_request req w) = a) by now rewrite Es.
    destruct a as [response|detail].
    + destruct (status_code response =? 204) eqn:E204.
      * cbn. rewrite E204. one_attempt w. now exists response.
      * destruct (is_error_status (status_code response)) eqn:Eerr.
        -- apply (Hexc (Answer response) (HTTPError (status_code response)) w1 eq_refl).
           cbn. now rewrite E204, Eerr.
        -- cbn. rewrite E204, Eerr. one_attempt w. now exists response.
    + apply (Hexc (Failure detail) (TransportError detail) w1 eq_refl).
      reflexivity.
Qed.

Lemma make_api_request_run (method url : string) (auth : string * string)
      (params : list (string * string)) (w : World) :
  0 <= retry_delay cfg ->
  attempts_post (Z.to_nat (max_retries cfg))
                (mkRequest method url auth params)
                (make_api_request method url auth params w).
Proof.
  intro Hd. unfold make_api_request.
  destruct (Z.le_gt_cases 0 (max_retries cfg)) as [H|H].
  - apply attempts_run; [exact Hd | lia].
  - replace (Z.to_nat (max_retries cfg)) with O by lia.
    simpl. repeat split; constructor.
Qed.


Lemma last_opt_end {A : Type} (l : list A) (x : A) :
  last_opt (l ++ [x]) = Some x.
Proof.
  induction l as [|y l IH]; [reflexivity|].
  cbn [app]. destruct (l ++ [x]) eqn:E; [now destruct l|].
  exact IH.
Qed.


(** An event of the HTTP layer working for requests of method [m]:
    such a request, a sleep, or a log line other than "Marking". *)
Definition io_event (m : string) (e : event) : Prop :=
  match e with
  | EvRequest r _ => method r = m
  | EvSleep _ => True
  | EvLog _ (LogMarking _) => False
  | EvLog _ _ => True
  | EvCall _ | EvReturned _ _ => False
  end.

Lemma io_quiet (m : string) (t : list event) :
  Forall (io_event m) t -> quiet t.
Proof.
  induction 1 as [|e t He _ IH]; [apply quiet_nil|].
  destruct IH as [A [B C]]. unfold quiet.
  destruct e as [| |l msg| |]; simpl in *; try contradiction;
    try (now repeat split).
  destruct l, msg; try contradiction; now repeat split.
Qed.

Lemma io_get_no_delete (t : list event) :
  Forall (io_event "GET") t ->
  Forall (fun e => is_delete_request e = false) t.
Proof.
  apply Forall_impl. intros [r a| | | |] H; try reflexivity.
  simpl in *. now rewrite H.
Qed.

(** Whatever the configuration, the attempt loop only talks HTTP. *)
Lemma attempts_io (req : Request) (remaining : nat) :
  forall (attempt : Z) (w : World),
    Forall (io_event (method req)) (snd (attempts remaining attempt req w)).
Proof.
  induction remaining as [|k IH]; intros attempt w; [constructor|].
  cbn [attempts]. unfold bind at 1. unfold request.
  destruct (session_request req w) as [a w1].
  assert (Hexc : forall e,
             Forall (io_event (method req))
               (snd (let '(r, w2, t2) :=
                       (if attempt <? max_retries cfg - 1
                        then log WARNING (LogRetry (attempt + 1) e (retry_delay cfg)) ;;;
                             sleep (retry_delay cfg) ;;;
                             attempts k (attempt + 1) req
                        else raise (NexusAPIError (max_retries cfg) e)) w1
                     in (r, w2, [EvRequest req a] ++ t2)))).
  { intro e. destruct (attempt <? max_retries cfg - 1).
    - unfold bind, log, emit, sleep.
      destruct (retry_delay cfg <? 0).
      + repeat constructor.
      + specialize (IH (attempt + 1) (time_passes (retry_delay cfg) w1)).
        destruct (attempts k (attempt + 1) req
                    (time_passes (retry_delay cfg) w1)) as [[r w2] t2].
        destruct r; repeat constructor; exact IH.
    - repeat constructor. }
  destruct a as [response|detail]; [|apply Hexc].
  destruct (status_code response =? 204); [repeat constructor|].
  destruct (is_error_status (status_code response));
    [apply Hexc | repeat constructor].
Qed.

Lemma make_api_request_io (m url : string) (auth : string * string)
      (params : list (string * string)) (w : World) :
  Forall (io_event m) (snd (make_api_request m url auth params w)).
Proof. apply (attempts_io (mkRequest m url auth params)). Qed.

(** A response that [make_api_request] returns is the answer of its
    last attempt, and every attempt before it raised. *)
Lemma attempts_returns (req : Request) (remaining : nat) :
  forall (attempt : Z) (w w' : World) (response : Response Body)
         (t : list event),
    attempts remaining attempt req w = (Return (Some response), w', t) ->
    exists fails,
      attempt_results t = fails ++ [Answer response] /\
      Forall (fun a => request_exception a <> None) fails /\
      request_exception (Answer response) = None.
Proof.
  induction remaining as [|k IH]; intros attempt w w' response t H;
    [discriminate|].
  cbn [attempts] in H. unfold bind at 1 in H. unfold request in H.
  destruct (session_request req w) as [a w1].
  assert (Hexc : forall e,
             request_exception a = Some e ->
             (let '(r, w2, t2) :=
                (if attempt <? max_retries cfg - 1
                 then log WARNING (LogRetry (attempt + 1) e (retry_delay cfg)) ;;;
                      sleep (retry_delay cfg) ;;;
                      attempts k (attempt + 1) req
                 else raise (NexusAPIError (max_retries cfg) e)) w1
              in (r, w2, [EvRequest req a] ++ t2))
             = (Return (Some response), w', t) ->
             exists fails,
               attempt_results t = fails ++ [Answer response] /\
               Forall (fun a => request_exception a <> None) fails /\
               request_exception (Answer response) = None).
  { intros e He Hrun.
    destruct (attempt <? max_retries cfg - 1); [|discriminate].
    unfold bind, log, emit, sleep in Hrun.
    destruct (retry_delay cfg <? 0); [discriminate|].
    destruct (attempts k (attempt + 1) req
                (time_passes (retry_delay cfg) w1)) as [[r w2] t2] eqn:E.
    destruct r as [[resp|]|]; try discriminate.
    injection Hrun as -> -> <-.
    destruct (IH _ _ _ _ _ E) as [fails [Hf [Ha Hn]]].
    exists (a :: fails). norm_trace. rewrite Hf.
    repeat split; [|exact Hn]. constructor; [congruence | exact Ha]. }
  destruct a as [resp|detail].
  - destruct (status_code resp =? 204) eqn:E204.
    + injection H as -> _ <-. exists []. repeat split; [constructor|].
      simpl. now rewrite E204.
    + destruct (is_error_status (status_code resp)) eqn:Eerr.
      * apply (Hexc (HTTPError (status_code resp))); [|exact H].
        simpl. now rewrite E204, Eerr.
      * injection H as -> _ <-. exists []. repeat split; [constructor|].
        simpl. now rewrite E204, Eerr.
  - apply (Hexc (TransportError detail)); [reflexivity | exact H].
Qed.



(* =============================================================== *)
(** ** delete_component *)

Definition delete_request (component : Component) : Request :=
  mkRequest "DELETE" (delete_url component) (username cfg, password cfg) [].

(** Whatever the configuration, one call of [delete_component] is one
    ghost call, talks HTTP with DELETE requests only, and announces no
    "Marking" line. *)
Lemma delete_component_calls (c : Component) (w : World) :
  let t := snd (delete_component c w) in
  delete_calls t = [c] /\ marked t = [] /\
  (List.length (delete_results t) <= 1)%nat.
Proof.
  unfold delete_component, bind, try_except, emit, log, ret, raise.
  pose proof (make_api_request_io "DELETE" (delete_url c)
                (username cfg, password cfg) [] w) as Hio.
  apply io_quiet in Hio. destruct Hio as [QA [QB QC]].
  destruct (make_api_request "DELETE" (delete_url c)
              (username cfg, password cfg) [] w) as [[r w1] t1].
  simpl in QA, QB, QC.
  destruct r as [[response|]|e].
  - destruct (status_code response =? 204); simpl;
      rewrite ?delete_calls_app, ?marked_app, ?delete_results_app, ?QA, ?QB, ?QC;
      simpl; repeat split; lia.
  - simpl. rewrite ?app_nil_r, ?QA, ?QB, ?QC. repeat split; simpl; lia.
  - destruct e; simpl;
      rewrite ?app_nil_r, ?delete_calls_app, ?marked_app, ?delete_results_app,
        ?QA, ?QB, ?QC;
      simpl; repeat split; lia.
Qed.

(** With at least one attempt allowed and a delay that [time.sleep]
    accepts, [delete_component] returns, and returns [True] exactly
    when its last attempt was answered 204. *)
Lemma delete_component_run (c : Component) (w : World) :
  0 <= retry_delay cfg -> 1 <= max_retries cfg ->
  exists ok w' t,
    delete_component c w = (Return ok, w', t) /\
    delete_calls t = [c] /\ delete_results t = [(c, ok)] /\ marked t = [] /\
    let outs := attempt_results t in
    outs <> [] /\
    Forall (fun a => exists w0,
                fst (session_request (delete_request c) w0) = a) outs /\
    (ok = true <->
     exists response, last_opt outs = Some (Answer response) /\
                      status_code response = 204) /\
    (forall a e, last_opt outs = Some a -> request_exception a = Some e ->
                 Z.of_nat (List.length outs) = max_retries cfg).
Proof.
  intros Hd Hm.
  pose proof (make_api_request_run "DELETE" (delete_url c)
                (username cfg, password cfg) [] w Hd) as P.
  unfold delete_component, bind, try_except, emit, log, ret, raise.
  fold (delete_request c) in P.
  destruct (make_api_request "DELETE" (delete_url c)
              (username cfg, password cfg) [] w) as [[r w1] t1].
  unfold attempts_post in P.
  destruct P as [HL [_ [_ [HO [[QA [QB QC]] HR]]]]].
  destruct (last_opt (attempt_results t1)) as [a|] eqn:El;
    [|destruct HR as [HR _]; lia].
  assert (Hne : attempt_results t1 <> [])
    by (intro E; rewrite E in El; discriminate).
  destruct (request_exception a) as [e|] eqn:Ee.
  - destruct HR as [HLen ->]. eexists false, w1, _. split; [reflexivity|].
    norm_trace. rewrite QA, QB, QC. norm_trace.
    repeat split; try assumption; try discriminate.
    + intros [response [E1 E2]]. rewrite El in E1. injection E1 as ->.
      simpl in Ee. apply Z.eqb_eq in E2. rewrite E2 in Ee. discriminate.
    + intros _ _ _ _. lia.
  - destruct HR as [response [-> ->]].
    destruct (status_code response =? 204) eqn:E204.
    + eexists true, w1, _. split; [reflexivity|].
      norm_trace. rewrite QA, QB, QC. norm_trace.
      repeat split; try assumption; try discriminate.
      * intros _. exists response. split; [exact El | now apply Z.eqb_eq].
      * intros a e E1. rewrite El in E1. injection E1 as <-. congruence.
    + eexists false, w1, _. split; [reflexivity|].
      norm_trace. rewrite QA, QB, QC. norm_trace.
      repeat split; try assumption; try discriminate.
      * intros [resp [E1 E2]]. rewrite El in E1. injection E1 as <-.
        apply Z.eqb_neq in E204. contradiction.
      * intros a e E1. rewrite El in E1. injection E1 as <-. congruence.
Qed.




(* =============================================================== *)
(** ** No attempts at all *)

Lemma make_api_request_none (method url : string) (auth : string * string)
      (params : list (string * string)) (w : World) :
  max_retries cfg <= 0 ->
  make_api_request method url auth params w = (Return None, w, []).
Proof.
  intro H. unfold make_api_request.
  now replace (Z.to_nat (max_retries cfg)) with O by lia.
Qed.

(** C9.  With [max_retries] 0, [make_api_request] makes no attempt and
    returns [None], neither a response nor [NexusAPIError]; the callers
    that use the result then fail with [AttributeError]:
    [get_all_components_paginated] on [response.json()] and
    [delete_component] on [response.status_code]. *)
Theorem zero_retries_returns_none
    (method url : string) (auth : string * string)
    (params : list (string * string)) (w : World)
    (fuel : nat) (c : Component) :
  max_retries cfg = 0 ->
  make_api_request method url auth params w = (Return None, w, []) /\
  (exists t, get_all_components_paginated (S fuel) w
             = Some (Raise AttributeError, w, t) /\
             attempt_results t = []) /\
  (exists t, delete_component c w = (Raise AttributeError, w, t) /\
             attempt_results t = []).
Proof.
  intro H0. assert (Hle : max_retries cfg <= 0) by lia.
  split; [now apply make_api_request_none|]. split.
  - unfold get_all_components_paginated. cbn [fetch_loop].
    unfold fetch_page, try_except, bind, log, emit.
    rewrite (make_api_request_none _ _ _ _ _ Hle). simpl.
    eexists. split; reflexivity.
  - unfold delete_component, try_except, bind, log, emit.
    rewrite (make_api_request_none _ _ _ _ _ Hle). simpl.
    eexists. split; reflexivity.
Qed.

(* =============================================================== *)
(** ** get_all_components_paginated *)

Lemma fetch_page_io (st : fetch_state) (w : World) :
  Forall (io_event "GET") (snd (fetch_page st w)).
Proof.
  unfold fetch_page, try_except, bind, json, log, emit, ret, raise.
  pose proof (make_api_request_io "GET" components_url
                (username cfg, password cfg)
                (page_params (continuation_token st)) w) as Hio.
  destruct (make_api_request "GET" components_url
              (username cfg, password cfg)
              (page_params (continuation_token st)) w) as [[r w1] t1].
  simpl in Hio.
  destruct r as [[response|]|e].
  - destruct (body response) as [data|].
    + destruct (truthy (continuationToken data)); simpl;
        constructor; try exact I;
        rewrite ?app_nil_r; apply Forall_app; split; try exact Hio;
        repeat constructor.
    + simpl. constructor; [exact I|]. rewrite ?app_nil_r.
      apply Forall_app. split; [exact Hio | repeat constructor].
  - simpl. constructor; [exact I|]. now rewrite ?app_nil_r.
  - destruct e; simpl; constructor; try exact I; rewrite ?app_nil_r;
      try exact Hio;
      apply Forall_app; split; try exact Hio; repeat constructor.
Qed.

Lemma fetch_loop_io (fuel : nat) :
  forall st w r w' t,
    fetch_loop fuel st w = Some (r, w', t) -> Forall (io_event "GET") t.
Proof.
  induction fuel as [|fuel IH]; intros st w r w' t H; [discriminate|].
  cbn [fetch_loop] in H.
  pose proof (fetch_page_io st w) as Hio.
  destruct (fetch_page st w) as [[[[st'|all|]|e] w1] t1]; simpl in Hio.
  - destruct (fetch_loop fuel st' w1) as [[[r2 w2] t2]|] eqn:E;
      [|discriminate].
    injection H as <- <- <-. apply Forall_app. split; [exact Hio|].
    exact (IH _ _ _ _ _ E).
  - injection H as <- <- <-. apply Forall_app. split; [exact Hio|].
    repeat constructor.
  - injection H as <- <- <-. exact Hio.
  - injection H as <- <- <-. exact Hio.
Qed.

Lemma get_all_io (fuel : nat) (w w' : World)
      (r : outcome (option (list Component))) (t : list event) :
  get_all_components_paginated fuel w = Some (r, w', t) ->
  Forall (io_event "GET") t.
Proof.
  unfold get_all_components_paginated.
  destruct (fetch_loop fuel initial_fetch w) as [[[r2 w2] t2]|] eqn:E;
    [|discriminate].
  intro H. injection H as <- <- <-.
  constructor; [exact I | exact (fetch_loop_io _ _ _ _ _ _ E)].
Qed.

(** A page whose request exhausts its retries ends the loop with
    [None]. *)
Lemma fetch_page_exhausted (st : fetch_state) (w w1 : World)
      (n : Z) (e : RequestException) (t1 : list event) :
  make_api_request "GET" components_url (username cfg, password cfg)
                   (page_params (continuation_token st)) w
  = (Raise (NexusAPIError n e), w1, t1) ->
  exists t, fetch_page st w = (Return FetchFailed, w1, t).
Proof.
  intro H. unfold fetch_page, try_except, bind, log, emit.
  rewrite H. simpl. now eexists.
Qed.

Lemma fetch_loop_pages (k : nat) :
  forall st0 w0 st w1,
    pages k st0 w0 = Some (st, w1) ->
    exists tk, forall fuel,
      fetch_loop (k + fuel) st0 w0
      = match fetch_loop fuel st w1 with
        | Some (r, w2, t) => Some (r, w2, tk ++ t)
        | None => None
        end.
Proof.
  induction k as [|k IH]; intros st0 w0 st w1 H.
  - injection H as <- <-. exists []. intro fuel. simpl.
    now destruct (fetch_loop fuel st0 w0) as [[[r w2] t]|].
  - cbn [pages] in H.
    destruct (fetch_page st0 w0) as [[[[st'|all|]|e] w'] t'] eqn:E;
      try discriminate.
    destruct (IH _ _ _ _ H) as [tk Hk].
    exists (t' ++ tk). intro fuel. cbn [Nat.add fetch_loop].
    rewrite E, Hk.
    destruct (fetch_loop fuel st w1) as [[[r w2] t]|]; [|reflexivity].
    now rewrite app_assoc.
Qed.


(** C3.  When, after [k] pages, the request for the next page exhausts
    its retries, [get_all_components_paginated] returns [None], so no
    partial list; [cleanup_job] then sends no DELETE request, calls
    [delete_component] not once, and records the pass as failed. *)
Theorem fetch_all_or_nothing
    (k fuel : nat) (w w1 w2 : World) (st : fetch_state)
    (n : Z) (e : RequestException) (t2 : list event) (record : RunRecord) :
  pages k initial_fetch w = Some (st, w1) ->
  make_api_request "GET" components_url (username cfg, password cfg)
                   (page_params (continuation_token st)) w1
  = (Raise (NexusAPIError n e), w2, t2) ->
  (k < fuel)%nat ->
  (exists t,
      get_all_components_paginated fuel w = Some (Return None, w2, t)) /\
  (exists t,
      cleanup_job fuel record w
      = Some (mkRunRecord (Some (now_isoformat w)) "failed", w2, t) /\
      Forall (fun ev => is_delete_request ev = false) t /\
      delete_calls t = []).
Proof.
  intros Hk Hreq Hfuel.
  destruct (fetch_loop_pages _ _ _ _ _ Hk) as [tk Hloop].
  destruct (fetch_page_exhausted _ _ _ _ _ _ Hreq) as [tf Hpage].
  assert (Hget : get_all_components_paginated fuel w
                 = Some (Return None, w2,
                         EvLog INFO LogFetching :: tk ++ tf)).
  { unfold get_all_components_paginated.
    replace fuel with (k + S (fuel - S k))%nat by lia.
    rewrite Hloop. cbn [fetch_loop]. now rewrite Hpage. }
  split; [eexists; exact Hget|].
  unfold cleanup_job, cleanup_try. rewrite Hget.
  eexists. split; [reflexivity|].
  pose proof (get_all_io _ _ _ _ _ Hget) as Hio.
  split.
  - constructor; [reflexivity|]. apply Forall_app. split.
    + now apply io_get_no_delete.
    + repeat constructor.
  - apply io_quiet in Hio. destruct Hio as [QA _].
    change (delete_calls
              (EvLog INFO LogStart
                 :: (EvLog INFO LogFetching :: tk ++ tf)
                 ++ [EvLog INFO (LogCompleted "failed")]))
      with (delete_calls
              ((EvLog INFO LogFetching :: tk ++ tf)
                 ++ [EvLog INFO (LogCompleted "failed")])).
    rewrite delete_calls_app, QA. reflexivity.
Qed.

(* =============================================================== *)
(** ** Grouping *)

(** A property of every (key, member) pair of a dict of lists survives
    [setdefault(k, []).append(v)] when it holds of [(k, v)]. *)
Lemma setdefault_append_members {K V : Type} (eqb : K -> K -> bool)
      (P : K -> V -> Prop) (k0 : K) (v0 : V) (d : list (K * list V)) :
  (forall k', eqb k0 k' = true -> k' = k0) ->
  P k0 v0 ->
  (forall k vs v, In (k, vs) d -> In v vs -> P k v) ->
  forall k vs v,
    In (k, vs) (setdefault_append eqb k0 v0 d) -> In v vs -> P k v.
Proof.
  intros Heq H0. induction d as [|[k' vs'] d IH]; intros Hd k vs v Hin Hv.
  - destruct Hin as [E|[]]. injection E as <- <-.
    destruct Hv as [<-|[]]. exact H0.
  - simpl in Hin. destruct (eqb k0 k') eqn:E.
    + destruct Hin as [E'|Hin].
      * injection E' as <- <-. apply in_app_or in Hv as [Hv|[<-|[]]].
        -- apply (Hd k' vs' v); [now left | exact Hv].
        -- now rewrite (Heq _ E).
      * apply (Hd k vs v); [now right | exact Hv].
    + destruct Hin as [E'|Hin].
      * injection E' as <- <-. apply (Hd k' vs' v); [now left | exact Hv].
      * apply (IH (fun k vs v Hi => Hd k vs v (or_intror Hi)) k vs v Hin Hv).
Qed.

Lemma key_eqb_eq (a b : string * string) : key_eqb a b = true <-> a = b.
Proof.
  destruct a as [a1 a2], b as [b1 b2]. unfold key_eqb. simpl.
  rewrite andb_true_iff, !String.eqb_eq. split.
  - now intros [-> ->].
  - intro H. now injection H.
Qed.

(** The groups of [artifacts] hold listed components only. *)
Lemma group_artifacts_members (components : list Component) :
  forall key comps c,
    In (key, comps) (group_artifacts components) -> In c comps ->
    In c components.
Proof.
  unfold group_artifacts.
  assert (G : forall l acc,
             (forall c, In c l -> In c components) ->
             (forall k vs v, In (k, vs) acc -> In v vs -> In v components) ->
             forall k vs v,
               In (k, vs)
                  (fold_left
                     (fun artifacts comp =>
                        setdefault_append key_eqb (group comp, name comp)
                          comp artifacts) l acc) ->
               In v vs -> In v components).
  { induction l as [|c l IH]; intros acc Hl Hacc; [exact Hacc|].
    cbn [fold_left]. apply IH; [intros c' Hc'; apply Hl; now right|].
    apply (setdefault_append_members key_eqb (fun _ v => In v components));
      [|apply Hl; now left | exact Hacc].
    intros k' Hk. symmetry. now apply key_eqb_eq. }
  apply (G components []); [auto | intros k vs v []].
Qed.

(** Every member of a branch parsed to the branch's key, with the
    timestamp and build number stored beside it. *)
Definition parsed_as (base_version : string) (x : snapshot) : Prop :=
  parse_snapshot_version (version (component x))
  = Return (Some (base_version, dt_obj x, build x)).

Lemma version_branches_members (comps : list Component) :
  forall base_version snapshots x,
    In (base_version, snapshots) (version_branches comps) ->
    In x snapshots -> parsed_as base_version x.
Proof.
  unfold version_branches.
  assert (G : forall acc,
             (forall k vs v, In (k, vs) acc -> In v vs -> parsed_as k v) ->
             forall k vs v,
               In (k, vs)
                  (fold_left
                     (fun branches comp =>
                        match parse_snapshot_version (version comp) with
                        | Return (Some (base_version, dt_obj, build_number)) =>
                            setdefault_append String.eqb base_version
                              (mkSnapshot comp dt_obj build_number) branches
                        | _ => branches
                        end) comps acc) ->
               In v vs -> parsed_as k v).
  { induction comps as [|c comps IH]; intros acc Hacc; [exact Hacc|].
    cbn [fold_left]. apply IH.
    destruct (parse_snapshot_version (version c)) as [[[[bv dt] n]|]|] eqn:E;
      try exact Hacc.
    apply setdefault_append_members; try exact Hacc.
    - intros k' Hk. symmetry. now apply String.eqb_eq.
    - exact E. }
  apply G. intros k vs v [].
Qed.

(** One turn of the loop of [group_branches]. *)
Lemma branches_step (c : Component) (comps : list Component)
      (acc : list (string * list snapshot)) (w : World) :
  foldM (fun version_branches comp =>
           parsed <- lift (parse_snapshot_version (version comp)) ;;
           match parsed with
           | Some (base_version, dt_obj, build_number) =>
               ret (setdefault_append String.eqb base_version
                      (mkSnapshot comp dt_obj build_number) version_branches)
           | None => ret version_branches
           end) (c :: comps) acc w
  = match parse_snapshot_version (version c) with
    | Return parsed =>
        foldM (fun version_branches comp =>
                 parsed <- lift (parse_snapshot_version (version comp)) ;;
                 match parsed with
                 | Some (base_version, dt_obj, build_number) =>
                     ret (setdefault_append String.eqb base_version
                            (mkSnapshot comp dt_obj build_number)
                            version_branches)
                 | None => ret version_branches
                 end) comps
              match parsed with
              | Some (base_version, dt_obj, build_number) =>
                  setdefault_append String.eqb base_version
                    (mkSnapshot c dt_obj build_number) acc
              | None => acc
              end w
    | Raise e => (Raise e, w, [])
    end.
Proof.
  cbn [foldM]. unfold bind at 1 2. unfold lift at 1.
  destruct (parse_snapshot_version (version c)) as [[[[bv dt] n]|]|e];
    [| |reflexivity]; unfold ret at 1; cbn [app];
    match goal with
    | |- context [foldM ?f comps ?a w] =>
        now destruct (foldM f comps a w) as [[r w2] t2]
    end.
Qed.

(** [group_branches] touches nothing and logs nothing.  It returns the
    branches of [version_branches], unless the [int] of a build number
    beyond the limit raises [ValueError]. *)
Lemma group_branches_run (comps : list Component) (w : World) :
  group_branches comps w = (Return (version_branches comps), w, []) \/
  (group_branches comps w = (Raise ValueError, w, []) /\
   Exists (fun c => within_int_limit (version c) = false) comps).
Proof.
  unfold group_branches, version_branches.
  generalize (@nil (string * list snapshot)) as acc.
  induction comps as [|c comps IH]; intro acc; [now left|].
  cbn [fold_left]. rewrite branches_step.
  destruct (parse_snapshot_version (version c)) as [r|e] eqn:E.
  - destruct r as [[[bv dt] n]|];
      match goal with
      | |- context [fold_left _ comps ?a] => destruct (IH a) as [H|[H X]]
      end;
      solve [ now left
            | right; split; [exact H | now apply Exists_cons_tl] ].
  - apply parse_raises in E as [-> E]. right.
    split; [reflexivity | now apply Exists_cons_hd].
Qed.

Lemma group_branches_pure (comps : list Component) (w : World) :
  all_within_int_limit comps = true ->
  group_branches comps w = (Return (version_branches comps), w, []).
Proof.
  intro L. destruct (group_branches_run comps w) as [H|[_ X]]; [exact H|].
  apply Exists_exists in X as [c [Hc Ec]].
  unfold all_within_int_limit in L. rewrite forallb_forall in L.
  rewrite (L c Hc) in Ec. discriminate.
Qed.

Lemma slice_from_incl {A : Type} (i : Z) (l : list A) (x : A) :
  In x (slice_from i l) -> In x l.
Proof.
  unfold slice_from.
  set (n := Z.to_nat _). intro H.
  rewrite <- (firstn_skipn n l). apply in_or_app. right. exact H.
Qed.

Lemma to_delete_incl (snapshots : list snapshot) (x : snapshot) :
  In x (to_delete snapshots) -> In x snapshots.
Proof.
  unfold to_delete.
  destruct (Z.of_nat (List.length (list_sort sort_key true snapshots))
            >? retain_count cfg); [|intros []].
  intro H. apply slice_from_incl in H.
  exact (Permutation_in _
           (Permutation_sym (list_sort_reverse_perm sort_key snapshots)) H).
Qed.

(* =============================================================== *)
(** ** Which components reach delete_component *)

(** Every component handed to [delete_component] during [m] satisfies
    [P], however [m] ends. *)
Definition calls_in {A : Type} (P : Component -> Prop) (m : M World A)
  : Prop :=
  forall w, Forall P (delete_calls (snd (m w))).

Lemma calls_in_bind {A B : Type} (P : Component -> Prop)
      (m : M World A) (f : A -> M World B) :
  calls_in P m -> (forall a, calls_in P (f a)) -> calls_in P (bind m f).
Proof.
  intros Hm Hf w. unfold bind. specialize (Hm w).
  destruct (m w) as [[[a|e] w1] t1]; [|exact Hm].
  specialize (Hf a w1). destruct (f a w1) as [[r w2] t2].
  simpl in *. rewrite delete_calls_app. apply Forall_app. now split.
Qed.

Lemma calls_in_ret {A : Type} (P : Component -> Prop) (a : A) :
  calls_in P (ret a).
Proof. intro w. constructor. Qed.

Lemma calls_in_log (P : Component -> Prop) (l : log_level) (m : log_msg) :
  calls_in P (log l m).
Proof. intro w. constructor. Qed.

Lemma calls_in_foldM {A : Type} (P : Component -> Prop)
      (f : bool -> A -> M World bool) (l : list A) :
  (forall b x, In x l -> calls_in P (f b x)) ->
  forall b, calls_in P (foldM f l b).
Proof.
  induction l as [|x l IH]; intros Hf b; [apply calls_in_ret|].
  cbn [foldM]. apply calls_in_bind.
  - apply Hf. now left.
  - intro b'. apply IH. intros b0 y Hy. apply Hf. now right.
Qed.

Lemma calls_in_delete_item (P : Component -> Prop)
      (success : bool) (item : snapshot) :
  P (component item) -> calls_in P (delete_item success item).
Proof.
  intro HP. unfold delete_item.
  destruct (negb (dry_run cfg)); [|apply calls_in_ret].
  apply calls_in_bind.
  - intro w. destruct (delete_component_calls (component item) w) as [-> _].
    now repeat constructor.
  - intro ok. destruct (negb ok); apply calls_in_ret.
Qed.

Lemma calls_in_process_branch (P : Component -> Prop) (success : bool)
      (branch : string * list snapshot) :
  (forall x, In x (snd branch) -> P (component x)) ->
  calls_in P (process_branch success branch).
Proof.
  destruct branch as [base_version snapshots]. intro HP.
  unfold process_branch. apply calls_in_bind; [apply calls_in_log|].
  intros _.
  destruct (Z.of_nat (List.length (list_sort sort_key true snapshots))
            >? retain_count cfg); [|apply calls_in_ret].
  apply calls_in_bind; [apply calls_in_log|]. intros _.
  apply calls_in_foldM. intros b x Hx. apply calls_in_delete_item, HP.
  apply slice_from_incl in Hx.
  exact (Permutation_in _
           (Permutation_sym (list_sort_reverse_perm sort_key snapshots)) Hx).
Qed.

Definition parses (c : Component) : Prop :=
  parse_snapshot_version (version c) <> Return None.

Lemma parsed_as_parses (base_version : string) (x : snapshot) :
  parsed_as base_version x -> parses (component x).
Proof. unfold parsed_as, parses. intros ->. discriminate. Qed.

Lemma calls_in_process_snapshots (components : list Component) :
  calls_in parses (process_snapshots components).
Proof.
  unfold process_snapshots. destruct components as [|c0 rest];
    [apply calls_in_ret|].
  apply calls_in_bind; [apply calls_in_log|]. intros _.
  apply calls_in_foldM. intros b [[g n] comps] _.
  unfold process_artifact.
  apply calls_in_bind; [apply calls_in_log|]. intros _.
  intro w. unfold bind.
  destruct (group_branches_run comps w) as [->|[-> _]];
    [|simpl; constructor].
  pose proof (calls_in_foldM parses process_branch
                (version_branches comps)) as H.
  specialize (H (fun b0 br Hbr =>
                   calls_in_process_branch parses b0 br
                     (fun x Hx => parsed_as_parses (fst br) x
                        (version_branches_members comps (fst br) (snd br) x
                           ltac:(now destruct br) Hx))) b w).
  destruct (foldM process_branch (version_branches comps) b w)
    as [[r w2] t2].
  exact H.
Qed.

(** C6.  A component whose version does not parse is a member of no
    version branch, is not among the deletion candidates, and is never
    handed to [delete_component], whatever the configuration. *)
Theorem unparseable_never_deleted
    (components : list Component) (c : Component) (w : World) :
  parse_snapshot_version (version c) = Return None ->
  (forall artifact w0 branches w1 t branch x,
      In artifact (group_artifacts components) ->
      group_branches (snd artifact) w0 = (Return branches, w1, t) ->
      In branch branches -> In x (snd branch) -> component x <> c) /\
  ~ In c (deletion_candidates components) /\
  ~ In c (delete_calls (snd (process_snapshots components w))).
Proof.
  intro Hc. split; [|split].
  - intros artifact w0 branches w1 t [bv snaps] x _ Hg Hb Hx E.
    destruct (group_branches_run (snd artifact) w0) as [H|[H _]];
      rewrite H in Hg; [|discriminate]. injection Hg as <- _ _.
    pose proof (version_branches_members _ _ _ _ Hb Hx) as Hp.
    apply parsed_as_parses in Hp. rewrite E in Hp. now elim Hp.
  - unfold deletion_candidates, all_branches. intro Hin.
    apply in_flat_map in Hin as [[bv snaps] [Hb Hin]].
    apply in_flat_map in Hb as [artifact [_ Hb]].
    apply in_map_iff in Hin as [x [<- Hx]].
    apply to_delete_incl in Hx.
    pose proof (version_branches_members _ _ _ _ Hb Hx) as Hp.
    apply parsed_as_parses in Hp. now elim Hp.
  - intro Hin.
    pose proof (calls_in_process_snapshots components w) as H.
    rewrite Forall_forall in H. now elim (H c Hin).
Qed.

(* =============================================================== *)
(** ** A pass that runs to its end *)

Section Pass.
(** Either nothing is deleted, or [delete_component] can run: at
    least one attempt is allowed and [time.sleep] accepts the delay. *)
Hypothesis runnable :
  dry_run cfg = true \/ (0 <= retry_delay cfg /\ 1 <= max_retries cfg).

(** The candidates that are acted upon. *)
Definition effective (cands : list Component) : list Component :=
  if dry_run cfg then [] else cands.

Lemma effective_app (a b : list Component) :
  effective (a ++ b) = effective a ++ effective b.
Proof. unfold effective. now destruct (dry_run cfg). Qed.

(** [m] returns; it calls [delete_component] on the effective
    candidates, in order and each to its end; its result is [success]
    unless one of these calls returned [False]; it announces [sizes];
    and in dry-run mode it only logs. *)
Definition tracked (m : M World bool) (success : bool)
           (cands : list Component) (sizes : list nat) : Prop :=
  forall w, exists w' t,
    m w = (Return (success && forallb snd (delete_results t)), w', t) /\
    map fst (delete_results t) = effective cands /\
    delete_calls t = effective cands /\
    marked t = sizes /\
    (dry_run cfg = true -> Forall (fun e => is_log e = true) t /\ w' = w).

Lemma tracked_ret (success : bool) : tracked (ret success) success [] [].
Proof.
  intro w. exists w, []. simpl. rewrite andb_true_r.
  unfold effective. destruct (dry_run cfg); now repeat split.
Qed.

Lemma tracked_log (l : log_level) (msg : log_msg) (m : M World bool)
      (success : bool) (cands : list Component) (sizes : list nat) :
  tracked m success cands sizes ->
  tracked (log l msg ;;; m) success cands
          (marked [EvLog l msg] ++ sizes).
Proof.
  intros Hm w. destruct (Hm w) as [w' [t [E [H1 [H2 [H3 H4]]]]]].
  exists w', (EvLog l msg :: t). unfold bind, log, emit. rewrite E.
  change (EvLog l msg :: t) with ([EvLog l msg] ++ t).
  rewrite delete_results_app, delete_calls_app, marked_app.
  cbn [delete_results delete_calls app]. rewrite H3.
  repeat split; try assumption.
  - constructor; [reflexivity | now apply H4].
  - now apply H4.
Qed.

Lemma tracked_delete_item (success : bool) (item : snapshot) :
  tracked (delete_item success item) success [component item] [].
Proof.
  intro w. unfold delete_item, effective.
  destruct (dry_run cfg) eqn:Edry; cbn [negb].
  - exists w, []. simpl. rewrite andb_true_r. now repeat split.
  - destruct runnable as [|[Hd Hm]]; [discriminate|].
    destruct (delete_component_run (component item) w Hd Hm)
      as [ok [w' [t [E [H1 [H2 [H3 _]]]]]]].
    exists w', t. unfold bind. rewrite E.
    rewrite H2, H1, H3. cbn [map fst forallb snd].
    destruct ok, success; simpl; rewrite app_nil_r;
      repeat split; discriminate.
Qed.

Lemma tracked_foldM {A : Type} (f : bool -> A -> M World bool)
      (cs : A -> list Component) (ss : A -> list nat) (l : list A) :
  (forall b x, In x l -> tracked (f b x) b (cs x) (ss x)) ->
  forall b, tracked (foldM f l b) b (flat_map cs l) (flat_map ss l).
Proof.
  induction l as [|x l IH]; intros Hf b; [apply tracked_ret|].
  intro w. cbn [foldM flat_map].
  destruct (Hf b x (or_introl eq_refl) w)
    as [w1 [t1 [E1 [A1 [B1 [C1 D1]]]]]].
  destruct (IH (fun b0 y Hy => Hf b0 y (or_intror Hy))
               (b && forallb snd (delete_results t1)) w1)
    as [w2 [t2 [E2 [A2 [B2 [C2 D2]]]]]].
  exists w2, (t1 ++ t2). unfold bind. rewrite E1, E2.
  rewrite delete_results_app, delete_calls_app, marked_app,
    forallb_app, map_app, effective_app, A1, A2, B1, B2, C1, C2,
    andb_assoc.
  repeat split.
  - apply Forall_app. split; [now apply D1 | now apply D2].
  - destruct (D1 H) as [_ <-]. now apply D2.
Qed.

Lemma flat_map_singleton {A B : Type} (f : A -> B) (l : list A) :
  flat_map (fun x => [f x]) l = map f l.
Proof. induction l as [|x l IH]; simpl; [reflexivity | now rewrite IH]. Qed.

Lemma flat_map_nil {A B : Type} (l : list A) :
  flat_map (fun _ : A => @nil B) l = [].
Proof. induction l as [|x l IH]; simpl; [reflexivity | exact IH]. Qed.

Lemma flat_map_compose {A B C : Type} (f : A -> list B)
      (g : B -> list C) (l : list A) :
  flat_map g (flat_map f l) = flat_map (fun x => flat_map g (f x)) l.
Proof.
  induction l as [|x l IH]; simpl; [reflexivity|].
  now rewrite flat_map_app, IH.
Qed.

(** The candidates and the announcement of one branch. *)
Definition branch_candidates (branch : string * list snapshot)
  : list Component :=
  map component (to_delete (snd branch)).

Definition branch_announced (branch : string * list snapshot)
  : list nat :=
  if Z.of_nat (List.length (snd branch)) >? retain_count cfg
  then [List.length (to_delete (snd branch))]
  else [].

Lemma tracked_process_branch (success : bool)
      (branch : string * list snapshot) :
  tracked (process_branch success branch) success
          (branch_candidates branch) (branch_announced branch).
Proof.
  destruct branch as [base_version snapshots].
  unfold process_branch, branch_candidates, branch_announced, to_delete.
  cbn [snd]. rewrite list_sort_length.
  destruct (Z.of_nat (List.length snapshots) >? retain_count cfg).
  - apply (tracked_log INFO (LogBranch _ _) _ success _ [_]).
    apply (tracked_log INFO (LogMarking _) _ success _ []).
    rewrite <- flat_map_singleton.
    rewrite <- (flat_map_nil (B := nat)
                  (slice_from (retain_count cfg)
                              (list_sort sort_key true snapshots))).
    apply tracked_foldM. intros b x _. apply tracked_delete_item.
  - apply (tracked_log INFO (LogBranch _ _) _ success [] []).
    apply tracked_ret.
Qed.

Lemma tracked_process_artifact (success : bool)
      (artifact : (string * string) * list Component) :
  all_within_int_limit (snd artifact) = true ->
  tracked (process_artifact success artifact) success
          (flat_map branch_candidates (version_branches (snd artifact)))
          (flat_map branch_announced (version_branches (snd artifact))).
Proof.
  destruct artifact as [[g n] comps]. cbn [snd]. intro L.
  unfold process_artifact.
  apply (tracked_log INFO (LogArtifact g n) _ success _ _).
  intro w. unfold bind. rewrite (group_branches_pure _ _ L).
  destruct (tracked_foldM process_branch branch_candidates
              branch_announced (version_branches comps)
              (fun b x _ => tracked_process_branch b x) success w)
    as [w' [t [E H]]].
  exists w', t. rewrite E. split; [reflexivity | exact H].
Qed.

(** With every listed version within the limit of [int], the pass
    reaches every branch of every artifact. *)
Lemma tracked_process_snapshots (components : list Component) :
  all_within_int_limit components = true ->
  tracked (process_snapshots components) true
          (deletion_candidates components) (announced components).
Proof.
  intro L.
  unfold process_snapshots, deletion_candidates, announced, all_branches.
  rewrite !flat_map_compose.
  destruct components as [|c0 rest] eqn:Ec; [apply tracked_ret|].
  rewrite <- Ec in *. clear Ec c0 rest.
  apply (tracked_log INFO (LogArtifacts _) _ true _ _).
  apply (tracked_foldM process_artifact
           (fun a => flat_map branch_candidates (version_branches (snd a)))
           (fun a => flat_map branch_announced (version_branches (snd a)))).
  intros b [key comps] Hart. apply tracked_process_artifact. cbn [snd].
  unfold all_within_int_limit in *. rewrite forallb_forall in *.
  intros c Hc. apply L.
  exact (group_artifacts_members components key comps c Hart Hc).
Qed.
End Pass.

Lemma logs_no_requests (t : list event) :
  Forall (fun e => is_log e = true) t ->
  attempt_results t = [] /\
  Forall (fun e => is_delete_request e = false) t.
Proof.
  induction 1 as [|e t He _ [IH1 IH2]]; [now split|].
  destruct e; try discriminate. simpl. split; [exact IH1|].
  constructor; [reflexivity | exact IH2].
Qed.



(** In dry-run mode a computation of the pass only logs: it leaves the
    world as it was and its trace holds log lines only, whether it
    returns or raises. *)
Definition logs_only {A : Type} (m : M World A) : Prop :=
  forall w, exists r t,
    m w = (r, w, t) /\ Forall (fun e => is_log e = true) t.

Lemma logs_only_bind {A B : Type} (m : M World A) (f : A -> M World B) :
  logs_only m -> (forall a, logs_only (f a)) -> logs_only (bind m f).
Proof.
  intros Hm Hf w. unfold bind.
  destruct (Hm w) as [[a|e] [t1 [-> H1]]].
  - destruct (Hf a w) as [r [t2 [-> H2]]].
    exists r, (t1 ++ t2). split; [reflexivity|]. apply Forall_app. now split.
  - now exists (Raise e), t1.
Qed.

Lemma logs_only_ret {A : Type} (a : A) : logs_only (ret a).
Proof. intro w. exists (Return a), []. now split. Qed.

Lemma logs_only_log (l : log_level) (msg : log_msg) : logs_only (log l msg).
Proof. intro w. exists (Return tt), [EvLog l msg]. now repeat constructor. Qed.

Lemma logs_only_foldM {A : Type} (f : bool -> A -> M World bool)
      (l : list A) :
  (forall b x, logs_only (f b x)) -> forall b, logs_only (foldM f l b).
Proof.
  intro Hf. induction l as [|x l IH]; intro b; [apply logs_only_ret|].
  cbn [foldM]. apply logs_only_bind; [apply Hf | exact IH].
Qed.

Lemma logs_only_process_snapshots (components : list Component) :
  dry_run cfg = true -> logs_only (process_snapshots components).
Proof.
  intro Hdry. unfold process_snapshots.
  destruct components as [|c0 rest]; [apply logs_only_ret|].
  apply logs_only_bind; [apply logs_only_log|]. intros _.
  apply logs_only_foldM. intros b [[g n] comps]. unfold process_artifact.
  apply logs_only_bind; [apply logs_only_log|]. intros _.
  apply logs_only_bind.
  - intro w. destruct (group_branches_run comps w) as [->|[-> _]];
      eexists _, []; now split.
  - intro branches. apply logs_only_foldM. intros b0 [bv snaps].
    unfold process_branch.
    apply logs_only_bind; [apply logs_only_log|]. intros _.
    destruct (Z.of_nat (List.length (list_sort sort_key true snaps))
              >? retain_count cfg); [|apply logs_only_ret].
    apply logs_only_bind; [apply logs_only_log|]. intros _.
    apply logs_only_foldM. intros b1 x. unfold delete_item.
    rewrite Hdry. apply logs_only_ret.
Qed.

Lemma logs_no_calls (t : list event) :
  Forall (fun e => is_log e = true) t -> delete_calls t = [].
Proof.
  induction 1 as [|e t He _ IH]; [reflexivity|].
  destruct e; try discriminate. exact IH.
Qed.

(** X17.  In dry-run mode [process_snapshots] calls [delete_component]
    not once, sends no request and leaves the world as it was, for
    every listing and however it ends.  When no listed build number is
    beyond the limit of [int] it returns [True] after announcing the
    size of the delete set of every branch longer than [retain_count],
    and the pass is recorded as success. *)
Theorem dry_run_deletes_nothing (components : list Component) (w : World) :
  dry_run cfg = true ->
  (exists r t,
      process_snapshots components w = (r, w, t) /\
      delete_calls t = [] /\ attempt_results t = [] /\
      Forall (fun e => is_log e = true) t) /\
  (all_within_int_limit components = true ->
   (exists t,
       process_snapshots components w = (Return true, w, t) /\
       marked t = announced components) /\
   (forall fuel record w0 t1,
       get_all_components_paginated fuel w0
       = Some (Return (Some components), w, t1) ->
       exists t,
         cleanup_job fuel record w0
         = Some (mkRunRecord (Some (now_isoformat w0)) "success", w, t) /\
         delete_calls t = [] /\
         Forall (fun e => is_delete_request e = false) t)).
Proof.
  intro Hdry. split.
  - destruct (logs_only_process_snapshots components Hdry w)
      as [r [t [E Hlog]]].
    exists r, t. split; [exact E|].
    split; [now apply logs_no_calls|].
    split; [now apply logs_no_requests | exact Hlog].
  - intro Hlim.
    destruct (tracked_process_snapshots (or_introl Hdry) components Hlim w)
      as [w' [t [E [A [B [C D]]]]]].
    destruct (D Hdry) as [Hlog ->].
    unfold effective in A, B. rewrite Hdry in A, B.
    assert (Hres : delete_results t = [])
      by (destruct (delete_results t); [reflexivity | discriminate]).
    rewrite Hres in E. cbn [forallb andb] in E.
    destruct (logs_no_requests _ Hlog) as [Hno Hnd].
    split; [exists t; now split|].
    intros fuel record w0 t1 Hget.
    pose proof (get_all_io _ _ _ _ _ Hget) as Hio.
    unfold cleanup_job, cleanup_try. rewrite Hget, E.
    eexists. split; [reflexivity|]. split.
    + apply io_quiet in Hio. destruct Hio as [QA _].
      change (EvLog INFO LogStart :: (t1 ++ t) ++ [EvLog INFO (LogCompleted "success")])
        with ([EvLog INFO LogStart] ++ (t1 ++ t) ++ [EvLog INFO (LogCompleted "success")]).
      now rewrite !delete_calls_app, QA, B.
    + constructor; [reflexivity|]. apply Forall_app. split.
      * apply Forall_app. split; [now apply io_get_no_delete | exact Hnd].
      * repeat constructor.
Qed.

(* =============================================================== *)
(** ** The version parser, as the pattern reads a string *)

(** What the pattern matches is of the timestamped form. *)
Lemma pattern_sound (s g1 g2 g3 : string) :
  SNAPSHOT_PATTERN s = Some (g1, g2, g3) ->
  exists d8 d6 nl,
    timestamped_form s g1 d8 d6 g3 nl /\ g2 = (d8 ++ "." ++ d6)%string.
Proof.
  unfold SNAPSHOT_PATTERN. intro E.
  apply lazy_base_sound in E as [base [rest [-> [-> [Hb Hr]]]]].
  apply after_base_sound in Hr
    as [d8 [d6 [nl [[-> [D8 [L8 [D6 [L6 [Db [Nb Hnl]]]]]]] ->]]]].
  exists d8, d6, nl. split; [|reflexivity].
  unfold timestamped_form, pattern_form. cbn [append].
  repeat split; assumption.
Qed.

(** X18.  The parser, as the compiled pattern reads a string.  A string
    of the form base-DDDDDDDD.DDDDDD-build, the base free of line
    feeds, possibly followed by one final line feed: with a build
    number within the limit of [int] it parses to the base with
    "-SNAPSHOT" appended, the calendar reading of the digits and the
    build number, or to no match when the digits have no calendar
    reading; with a longer build number [int] raises [ValueError].
    Every string that is not of this form parses to no match. *)
Theorem parse_snapshot_version_timestamped (s : string) :
  (forall base d8 d6 b nl,
      timestamped_form s base d8 d6 b nl ->
      (Z.of_nat (slen b) <= int_max_str_digits ->
       parse_snapshot_version s
       = Return match calendar d8 d6 with
                | Some dt =>
                    Some ((base ++ "-SNAPSHOT")%string, dt, decimal b)
                | None => None
                end) /\
      (int_max_str_digits < Z.of_nat (slen b) ->
       parse_snapshot_version s = Raise ValueError)) /\
  ((~ exists base d8 d6 b nl, timestamped_form s base d8 d6 b nl) ->
   parse_snapshot_version s = Return None).
Proof.
  split.
  - intros base d8 d6 b nl F. rewrite (parse_complete _ _ _ _ _ _ F).
    split; intro H.
    + apply Z.leb_le in H. now rewrite H.
    + apply Z.leb_gt in H. now rewrite H.
  - intro Hno. unfold parse_snapshot_version.
    destruct (SNAPSHOT_PATTERN s) as [[[g1 g2] g3]|] eqn:E; [|reflexivity].
    exfalso. apply Hno.
    destruct (pattern_sound _ _ _ _ E) as [d8 [d6 [nl [F _]]]].
    now exists g1, d8, d6, g3, nl.
Qed.

(** A version with an empty base, "-DDDDDDDD.DDDDDD-build" with a
    calendar reading and a build number within the limit of [int],
    parses, and its base version is exactly "-SNAPSHOT". *)
Lemma parse_empty_base (d8 d6 b : string) (dt : datetime) :
  all_digits d8 = true -> slen d8 = 8%nat ->
  all_digits d6 = true -> slen d6 = 6%nat ->
  all_digits b = true -> b <> "" ->
  Z.of_nat (slen b) <= int_max_str_digits ->
  calendar d8 d6 = Some dt ->
  parse_snapshot_version ("-" ++ d8 ++ "." ++ d6 ++ "-" ++ b)
  = Return (Some ("-SNAPSHOT", dt, decimal b)).
Proof.
  intros D8 L8 D6 L6 Db Nb Lb C.
  rewrite (parse_complete _ "" d8 d6 b "").
  - apply Z.leb_le in Lb. now rewrite Lb, C.
  - unfold timestamped_form, pattern_form, line_end. cbn [append no_newline].
    rewrite sapp_nil_r. repeat split; auto.
Qed.

(* =============================================================== *)
(** ** More on the sort: equal keys keep their listing order *)

Lemma lex_eq (c1 c2 : comparison) : lex c1 c2 = Eq -> c1 = Eq /\ c2 = Eq.
Proof. destruct c1; simpl; intro H; try discriminate. now split. Qed.

Lemma list_compare_eq (a b : list Z) : list_compare a b = Eq -> a = b.
Proof.
  revert b. induction a as [|x a IH]; destruct b as [|y b]; simpl;
    try discriminate; [reflexivity|].
  intro H. apply lex_eq in H as [Hx Hr].
  apply Z.compare_eq in Hx. subst y. f_equal. now apply IH.
Qed.

Lemma key_compare_eq (a b : sort_key_t) : key_compare a b = Eq -> a = b.
Proof.
  rewrite key_compare_fields. intro H. apply list_compare_eq in H.
  destruct a as [[y1 m1 d1 h1 mi1 s1] b1], b as [[y2 m2 d2 h2 mi2 s2] b2].
  unfold fields in H. simpl in H. now injection H as -> -> -> -> -> -> ->.
Qed.

Lemma key_compare_refl (a : sort_key_t) : key_compare a a = Eq.
Proof.
  unfold key_compare, datetime_compare, lex. now rewrite !Z.compare_refl.
Qed.

Section Stability.
Context {A : Type} (key : A -> sort_key_t).

(** The elements whose sort key is [k]. *)
Definition has_key (k : sort_key_t) (x : A) : bool :=
  match key_compare k (key x) with Eq => true | _ => false end.

Lemma has_key_eq (k : sort_key_t) (x : A) :
  has_key k x = true <-> key x = k.
Proof.
  unfold has_key. split.
  - destruct (key_compare k (key x)) eqn:E; try discriminate.
    intros _. symmetry. now apply key_compare_eq.
  - intros ->. now rewrite key_compare_refl.
Qed.

Lemma insert_has_key (k : sort_key_t) (x : A) (l : list A) :
  filter (has_key k) (insert key x l) = filter (has_key k) (x :: l).
Proof.
  induction l as [|y l IH]; [reflexivity|].
  cbn [insert]. destruct (key_le (key x) (key y)) eqn:E; [reflexivity|].
  cbn [filter] in *. rewrite IH.
  destruct (has_key k x) eqn:Hx, (has_key k y) eqn:Hy; try reflexivity.
  apply has_key_eq in Hx, Hy. exfalso.
  unfold key_le in E. rewrite Hx, Hy, key_compare_refl in E. discriminate.
Qed.

Lemma sort_ascending_has_key (k : sort_key_t) (l : list A) :
  filter (has_key k) (sort_ascending key l) = filter (has_key k) l.
Proof.
  induction l as [|x l IH]; [reflexivity|].
  cbn [sort_ascending fold_right]. rewrite insert_has_key.
  cbn [filter]. fold (sort_ascending key l). now rewrite IH.
Qed.

(** X1.  [list.sort] is stable, with and without [reverse=True]: the
    elements that share one (timestamp, build) key come out in the order
    in which they went in. *)
Theorem list_sort_stable (reverse : bool) (k : sort_key_t) (l : list A) :
  filter (has_key k) (list_sort key reverse l) = filter (has_key k) l.
Proof.
  unfold list_sort. destruct reverse.
  - now rewrite filter_rev, sort_ascending_has_key, filter_rev, rev_involutive.
  - apply sort_ascending_has_key.
Qed.
End Stability.

(* =============================================================== *)
(** ** A negative retain count *)


(* =============================================================== *)
(** ** The two groupings are partitions *)

Lemma setdefault_append_perm {K V : Type} (eqb : K -> K -> bool)
      (k : K) (v : V) (d : list (K * list V)) :
  Permutation (flat_map snd (setdefault_append eqb k v d))
              (flat_map snd d ++ [v]).
Proof.
  induction d as [|[k' vs] d IH]; [reflexivity|].
  cbn [setdefault_append]. destruct (eqb k k'); cbn [flat_map snd].
  - rewrite <- !app_assoc. apply Permutation_app_head, Permutation_app_comm.
  - rewrite <- app_assoc. now apply Permutation_app_head.
Qed.

Lemma setdefault_append_keys_in {K V : Type} (eqb : K -> K -> bool)
      (k : K) (v : V) (d : list (K * list V)) :
  (forall a b, eqb a b = true <-> a = b) ->
  forall k', In k' (map fst (setdefault_append eqb k v d))
             <-> k' = k \/ In k' (map fst d).
Proof.
  intros Heq k'. induction d as [|[k0 vs] d IH]; simpl.
  - split; [intros [<-|[]]; now left | intros [->|[]]; now left].
  - destruct (eqb k k0) eqn:E; simpl.
    + apply Heq in E. subst k0. split; [tauto|].
      intros [->|[<-|H]]; auto.
    + rewrite IH. tauto.
Qed.

Lemma setdefault_append_keys_nodup {K V : Type} (eqb : K -> K -> bool)
      (k : K) (v : V) (d : list (K * list V)) :
  (forall a b, eqb a b = true <-> a = b) ->
  NoDup (map fst d) -> NoDup (map fst (setdefault_append eqb k v d)).
Proof.
  intros Heq. induction d as [|[k0 vs] d IH]; simpl; intro Hd.
  - repeat constructor. intros [].
  - inversion Hd as [|? ? Hnot Hrest]; subst.
    destruct (eqb k k0) eqn:E; simpl.
    + exact Hd.
    + constructor; [|now apply IH].
      rewrite (setdefault_append_keys_in eqb k v d Heq).
      intros [->|H]; [|contradiction].
      assert (eqb k k = true) by now apply Heq. congruence.
Qed.

Lemma setdefault_append_nonempty {K V : Type} (eqb : K -> K -> bool)
      (k : K) (v : V) (d : list (K * list V)) :
  (forall k' vs, In (k', vs) d -> vs <> []) ->
  forall k' vs, In (k', vs) (setdefault_append eqb k v d) -> vs <> [].
Proof.
  induction d as [|[k0 vs0] d IH]; simpl; intros Hd k' vs Hin.
  - destruct Hin as [E|[]]. injection E as _ <-. discriminate.
  - destruct (eqb k k0).
    + destruct Hin as [E|Hin].
      * injection E as _ <-. now destruct vs0.
      * apply (Hd k' vs). now right.
    + destruct Hin as [E|Hin].
      * injection E as <- <-. apply (Hd k0 vs0). now left.
      * apply (IH (fun a b H => Hd a b (or_intror H)) k' vs Hin).
Qed.

(** What the loop that fills [artifacts] keeps true of the dictionary
    it started from. *)
Lemma group_artifacts_fold (l : list Component)
      (acc : list ((string * string) * list Component)) :
  let step := fun artifacts comp =>
                setdefault_append key_eqb (group comp, name comp) comp
                                  artifacts in
  Permutation (flat_map snd (fold_left step l acc))
              (flat_map snd acc ++ l) /\
  (NoDup (map fst acc) -> NoDup (map fst (fold_left step l acc))) /\
  ((forall k vs c, In (k, vs) acc -> In c vs -> (group c, name c) = k) ->
   forall k vs c, In (k, vs) (fold_left step l acc) -> In c vs ->
                  (group c, name c) = k) /\
  ((forall k vs, In (k, vs) acc -> vs <> []) ->
   forall k vs, In (k, vs) (fold_left step l acc) -> vs <> []).
Proof.
  intro step. revert acc. induction l as [|c l IH]; intro acc.
  - simpl. rewrite app_nil_r. repeat split; auto.
  - cbn [fold_left]. destruct (IH (step acc c)) as [P [N [M E]]].
    split; [|split; [|split]].
    + rewrite P. unfold step. rewrite setdefault_append_perm.
      rewrite <- app_assoc. reflexivity.
    + intro Hn. apply N. unfold step.
      now apply setdefault_append_keys_nodup; [apply key_eqb_eq|].
    + intro Hm. apply M. unfold step.
      apply setdefault_append_members; try assumption; [|reflexivity].
      intros k' Hk. symmetry. now apply key_eqb_eq.
    + intro He. apply E. unfold step.
      now apply setdefault_append_nonempty.
Qed.

Lemma group_artifacts_perm (components : list Component) :
  Permutation (flat_map snd (group_artifacts components)) components.
Proof.
  unfold group_artifacts.
  exact (proj1 (group_artifacts_fold components [])).
Qed.

(** X3.  [artifacts] is a partition of the listing: the groups together
    hold exactly the listed components, every group is keyed by the
    (group, name) of each of its members, no key occurs twice and no
    group is empty. *)
Theorem group_artifacts_partition (components : list Component) :
  Permutation (flat_map snd (group_artifacts components)) components /\
  NoDup (map fst (group_artifacts components)) /\
  (forall key comps c,
      In (key, comps) (group_artifacts components) -> In c comps ->
      (group c, name c) = key) /\
  (forall key comps,
      In (key, comps) (group_artifacts components) -> comps <> []).
Proof.
  unfold group_artifacts.
  destruct (group_artifacts_fold components []) as [P [N [M E]]].
  split; [exact P|]. split; [apply N; constructor|].
  split; [apply M; intros k vs c []|apply E; intros k vs []].
Qed.

(** Whether a component's version parses. *)
Definition parses_b (c : Component) : bool :=
  match parse_snapshot_version (version c) with
  | Return (Some _) => true
  | _ => false
  end.

Lemma version_branches_perm (comps : list Component) :
  Permutation (map component (flat_map snd (version_branches comps)))
              (filter parses_b comps).
Proof.
  unfold version_branches.
  set (step := fun branches comp =>
                 match parse_snapshot_version (version comp) with
                 | Return (Some (base_version, dt_obj, build_number)) =>
                     setdefault_append String.eqb base_version
                       (mkSnapshot comp dt_obj build_number) branches
                 | _ => branches
                 end).
  assert (G : forall l acc,
             Permutation
               (map component (flat_map snd (fold_left step l acc)))
               (map component (flat_map snd acc) ++ filter parses_b l)).
  { induction l as [|c l IH]; intro acc.
    - simpl. now rewrite app_nil_r.
    - cbn [fold_left filter]. rewrite IH. unfold step.
      replace (parses_b c)
        with (match parse_snapshot_version (version c) with
              | Return (Some _) => true
              | _ => false
              end) by reflexivity.
      destruct (parse_snapshot_version (version c))
        as [[[[bv dt] n]|]|]; try reflexivity.
      rewrite setdefault_append_perm, map_app. cbn [map component].
      rewrite <- app_assoc. reflexivity. }
  exact (G comps []).
Qed.

(** X4.  The version branches of an artifact are a partition of its
    components with a timestamped version: the members' components are
    exactly those, every member parsed to the key of its branch, no
    branch key occurs twice and no branch is empty. *)
Theorem version_branches_partition (comps : list Component) :
  Permutation (map component (flat_map snd (version_branches comps)))
              (filter parses_b comps) /\
  NoDup (map fst (version_branches comps)) /\
  (forall base_version snapshots x,
      In (base_version, snapshots) (version_branches comps) ->
      In x snapshots -> parsed_as base_version x) /\
  (forall base_version snapshots,
      In (base_version, snapshots) (version_branches comps) ->
      snapshots <> []).
Proof.
  split; [apply version_branches_perm|].
  split; [|split; [apply version_branches_members|]];
    unfold version_branches;
    set (step := fun branches comp =>
                   match parse_snapshot_version (version comp) with
                   | Return (Some (base_version, dt_obj, build_number)) =>
                       setdefault_append String.eqb base_version
                         (mkSnapshot comp dt_obj build_number) branches
                   | _ => branches
                   end).
  - assert (G : forall l acc,
               NoDup (map fst acc) -> NoDup (map fst (fold_left step l acc))).
    { induction l as [|c l IH]; intros acc Hn; [exact Hn|].
      cbn [fold_left]. apply IH. unfold step.
      destruct (parse_snapshot_version (version c))
        as [[[[bv dt] n]|]|]; try exact Hn.
      apply setdefault_append_keys_nodup; [apply String.eqb_eq | exact Hn]. }
    apply G. constructor.
  - assert (G : forall l acc,
               (forall k vs, In (k, vs) acc -> vs <> []) ->
               forall k vs, In (k, vs) (fold_left step l acc) -> vs <> []).
    { induction l as [|c l IH]; intros acc Hn; [exact Hn|].
      cbn [fold_left]. apply IH. unfold step.
      destruct (parse_snapshot_version (version c))
        as [[[[bv dt] n]|]|]; try exact Hn.
      now apply setdefault_append_nonempty. }
    apply G. intros k vs [].
Qed.

(* =============================================================== *)
(** ** The deletion candidates within the listing *)

(** [l1] is part of [l2], counting repetitions. *)
Definition part_of {A : Type} (l1 l2 : list A) : Prop :=
  exists rest, Permutation l2 (l1 ++ rest).

Lemma part_of_perm {A : Type} (l1 l2 : list A) :
  Permutation l1 l2 -> part_of l1 l2.
Proof. intro H. exists []. rewrite app_nil_r. now symmetry. Qed.

Lemma part_of_trans {A : Type} (l1 l2 l3 : list A) :
  part_of l1 l2 -> part_of l2 l3 -> part_of l1 l3.
Proof.
  intros [r1 H1] [r2 H2]. exists (r1 ++ r2).
  rewrite H2, H1. now rewrite app_assoc.
Qed.

Lemma part_of_app {A : Type} (a a' b b' : list A) :
  part_of a a' -> part_of b b' -> part_of (a ++ b) (a' ++ b').
Proof.
  intros [r1 H1] [r2 H2]. exists (r1 ++ r2). rewrite H1, H2.
  rewrite <- !app_assoc. apply Permutation_app_head.
  rewrite !app_assoc. apply Permutation_app_tail, Permutation_app_comm.
Qed.

Lemma part_of_flat_map {A B : Type} (f g : A -> list B) (l : list A) :
  (forall x, In x l -> part_of (f x) (g x)) ->
  part_of (flat_map f l) (flat_map g l).
Proof.
  induction l as [|x l IH]; intro H; [now exists []|].
  cbn [flat_map]. apply part_of_app.
  - apply H. now left.
  - apply IH. intros y Hy. apply H. now right.
Qed.

Lemma part_of_map {A B : Type} (f : A -> B) (l1 l2 : list A) :
  part_of l1 l2 -> part_of (map f l1) (map f l2).
Proof.
  intros [r H]. exists (map f r). rewrite <- map_app.
  now apply Permutation_map.
Qed.

Lemma part_of_filter {A : Type} (f : A -> bool) (l : list A) :
  part_of (filter f l) l.
Proof.
  exists (filter (fun x => negb (f x)) l).
  induction l as [|x l IH]; [reflexivity|].
  cbn [filter]. destruct (f x); cbn [negb app].
  - now apply perm_skip.
  - rewrite <- Permutation_middle. now apply perm_skip.
Qed.

Lemma part_of_in {A : Type} (l1 l2 : list A) (x : A) :
  part_of l1 l2 -> In x l1 -> In x l2.
Proof.
  intros [r H] Hx. apply (Permutation_in _ (Permutation_sym H)).
  apply in_or_app. now left.
Qed.

Lemma part_of_length {A : Type} (l1 l2 : list A) :
  part_of l1 l2 -> (List.length l1 <= List.length l2)%nat.
Proof.
  intros [r H]. apply Permutation_length in H.
  rewrite length_app in H. lia.
Qed.

Lemma map_flat_map_snd {K A B : Type} (f : A -> B) (l : list (K * list A)) :
  flat_map (fun b => map f (snd b)) l = map f (flat_map snd l).
Proof.
  induction l as [|x l IH]; [reflexivity|].
  cbn [flat_map]. now rewrite map_app, IH.
Qed.

Lemma to_delete_part (snapshots : list snapshot) :
  part_of (to_delete snapshots) snapshots.
Proof.
  apply part_of_trans with (l2 := list_sort sort_key true snapshots);
    [|apply part_of_perm; symmetry; apply list_sort_reverse_perm].
  unfold to_delete.
  destruct (Z.of_nat (List.length (list_sort sort_key true snapshots))
            >? retain_count cfg);
    [|exists (list_sort sort_key true snapshots); reflexivity].
  unfold slice_from. set (n := Z.to_nat _).
  exists (firstn n (list_sort sort_key true snapshots)).
  rewrite Permutation_app_comm. now rewrite firstn_skipn.
Qed.

Lemma candidates_by_artifact (components : list Component) :
  deletion_candidates components
  = flat_map
      (fun artifact =>
         flat_map (fun branch => map component (to_delete (snd branch)))
                  (version_branches (snd artifact)))
      (group_artifacts components).
Proof.
  unfold deletion_candidates, all_branches.
  induction (group_artifacts components) as [|a l IH]; [reflexivity|].
  cbn [flat_map]. now rewrite flat_map_app, IH.
Qed.

(** X5.  The deletion candidates are part of the listing, counting
    repetitions: a component is marked for deletion at most as often as
    the remote listed it, and never when it was not listed. *)
Theorem candidates_part_of_listing (components : list Component) :
  exists rest,
    Permutation components (deletion_candidates components ++ rest).
Proof.
  change (part_of (deletion_candidates components) components).
  rewrite candidates_by_artifact.
  apply part_of_trans
    with (l2 := flat_map snd (group_artifacts components));
    [|apply part_of_perm, group_artifacts_perm].
  apply part_of_flat_map. intros [key comps] _. cbn [snd].
  apply part_of_trans with (l2 := filter parses_b comps);
    [|apply part_of_filter].
  apply part_of_trans
    with (l2 := map component (flat_map snd (version_branches comps)));
    [|apply part_of_perm, version_branches_perm].
  rewrite <- map_flat_map_snd.
  apply part_of_flat_map. intros branch _.
  apply part_of_map, to_delete_part.
Qed.




(* =============================================================== *)
(** ** What a pass may send *)

(** Every event of [m], however [m] ends, satisfies [Q]. *)
Definition only {A : Type} (Q : event -> Prop) (m : M World A) : Prop :=
  forall w, Forall Q (snd (m w)).

Lemma only_bind {A B : Type} (Q : event -> Prop)
      (m : M World A) (f : A -> M World B) :
  only Q m -> (forall a, only Q (f a)) -> only Q (bind m f).
Proof.
  intros Hm Hf w. unfold bind. specialize (Hm w).
  destruct (m w) as [[[a|e] w1] t1]; [|exact Hm].
  specialize (Hf a w1). destruct (f a w1) as [[r w2] t2].
  simpl in *. apply Forall_app. now split.
Qed.

Lemma only_ret {A : Type} (Q : event -> Prop) (a : A) : only Q (ret a).
Proof. intro w. constructor. Qed.

Lemma only_emit (Q : event -> Prop) (e : event) : Q e -> only Q (emit e).
Proof. intros H w. now repeat constructor. Qed.

Lemma only_foldM {A : Type} (Q : event -> Prop)
      (f : bool -> A -> M World bool) (l : list A) :
  (forall b x, In x l -> only Q (f b x)) ->
  forall b, only Q (foldM f l b).
Proof.
  induction l as [|x l IH]; intros Hf b; [apply only_ret|].
  cbn [foldM]. apply only_bind.
  - apply Hf. now left.
  - intro b'. apply IH. intros b0 y Hy. apply Hf. now right.
Qed.

(** The events of the attempt loop: attempts of the one request, sleeps
    and log lines. *)
Definition attempt_event (req : Request) (e : event) : Prop :=
  match e with
  | EvRequest r _ => r = req
  | EvSleep _ | EvLog _ _ => True
  | EvCall _ | EvReturned _ _ => False
  end.

Lemma attempts_events (req : Request) (remaining : nat) :
  forall (attempt : Z), only (attempt_event req)
                             (attempts remaining attempt req).
Proof.
  induction remaining as [|k IH]; intros attempt; [apply only_ret|].
  cbn [attempts]. apply only_bind.
  - intro w. unfold request. destruct (session_request req w).
    now repeat constructor.
  - intro a.
    assert (Hexc : forall e,
               only (attempt_event req)
                 (if attempt <? max_retries cfg - 1
                  then log WARNING (LogRetry (attempt + 1) e (retry_delay cfg)) ;;;
                       sleep (retry_delay cfg) ;;;
                       attempts k (attempt + 1) req
                  else raise (NexusAPIError (max_retries cfg) e))).
    { intro e. destruct (attempt <? max_retries cfg - 1).
      - apply only_bind; [now apply only_emit|]. intros _.
        apply only_bind; [|intros _; apply IH].
        intro w. unfold sleep. destruct (retry_delay cfg <? 0);
          now repeat constructor.
      - intro w. constructor. }
    destruct a as [response|detail]; [|apply Hexc].
    destruct (status_code response =? 204); [apply only_ret|].
    destruct (is_error_status (status_code response));
      [apply Hexc | apply only_ret].
Qed.

(** The events of one call of [delete_component]. *)
Definition delete_event (c : Component) (e : event) : Prop :=
  match e with
  | EvRequest r _ => r = delete_request c
  | EvSleep _ | EvLog _ _ => True
  | EvCall c' | EvReturned c' _ => c' = c
  end.

Lemma only_delete_component (c : Component) :
  only (delete_event c) (delete_component c).
Proof.
  intro w. unfold delete_component, bind, try_except, emit, log, ret, raise.
  pose proof (attempts_events (delete_request c)
                (Z.to_nat (max_retries cfg)) 0 w) as H.
  fold (make_api_request "DELETE" (delete_url c)
          (username cfg, password cfg) []) in H.
  assert (H' : Forall (delete_event c)
                 (snd (make_api_request "DELETE" (delete_url c)
                         (username cfg, password cfg) [] w))).
  { revert H. apply Forall_impl. intros [r a| | | |]; simpl; auto;
      contradiction. }
  clear H.
  destruct (make_api_request "DELETE" (delete_url c)
              (username cfg, password cfg) [] w) as [[r w1] t1].
  simpl in H'.
  destruct r as [[response|]|e].
  - destruct (status_code response =? 204); simpl;
      constructor; try reflexivity; rewrite ?app_nil_r;
      repeat (apply Forall_app; split); try exact H';
      now repeat constructor.
  - simpl. constructor; [reflexivity|]. now rewrite app_nil_r.
  - destruct e; simpl; constructor; try reflexivity; rewrite ?app_nil_r;
      try exact H';
      repeat (apply Forall_app; split); try exact H';
      now repeat constructor.
Qed.

(** What a pass over [components] may leave in its trace: DELETE
    requests for deletion candidates, calls of [delete_component] on
    deletion candidates, sleeps and log lines. *)
Definition pass_event (components : list Component) (e : event) : Prop :=
  match e with
  | EvRequest r _ =>
      exists c, In c (deletion_candidates components) /\ r = delete_request c
  | EvSleep _ | EvLog _ _ => True
  | EvCall c | EvReturned c _ => In c (deletion_candidates components)
  end.

Lemma only_process_snapshots (components : list Component) :
  only (pass_event components) (process_snapshots components).
Proof.
  unfold process_snapshots. destruct components as [|c0 rest] eqn:Ec;
    [apply only_ret|]. rewrite <- Ec. clear Ec c0 rest.
  apply only_bind; [now apply only_emit|]. intros _.
  apply only_foldM. intros b [[g n] comps] Hart.
  unfold process_artifact.
  apply only_bind; [now apply only_emit|]. intros _.
  intro w. unfold bind.
  destruct (group_branches_run comps w) as [->|[-> _]];
    [|simpl; constructor].
  assert (H : only (pass_event components)
                (foldM process_branch (version_branches comps) b)).
  { apply only_foldM. intros b0 [bv snaps] Hbr.
    unfold process_branch.
    apply only_bind; [now apply only_emit|]. intros _.
    destruct (Z.of_nat (List.length (list_sort sort_key true snaps))
              >? retain_count cfg) eqn:E; [|apply only_ret].
    apply only_bind; [now apply only_emit|]. intros _.
    apply only_foldM. intros b1 x Hx. unfold delete_item.
    destruct (negb (dry_run cfg)); [|apply only_ret].
    assert (Hc : In (component x) (deletion_candidates components)).
    { rewrite candidates_by_artifact. apply in_flat_map.
      exists (g, n, comps). split; [exact Hart|]. cbn [snd].
      apply in_flat_map. exists (bv, snaps). split; [exact Hbr|].
      apply in_map. cbn [snd]. unfold to_delete. now rewrite E. }
    apply only_bind; [|intro ok; destruct (negb ok); apply only_ret].
    intro w0. pose proof (only_delete_component (component x) w0) as Hd.
    revert Hd. apply Forall_impl.
    intros [r a| | |c'|c' ok]; simpl; auto.
    - intros ->. now exists (component x).
    - now intros ->.
    - now intros ->. }
  specialize (H w).
  destruct (foldM process_branch (version_branches comps) b w)
    as [[r w2] t2].
  exact H.
Qed.

Lemma candidates_listed (components : list Component) (c : Component) :
  In c (deletion_candidates components) -> In c components.
Proof.
  rewrite candidates_by_artifact. intro H.
  apply in_flat_map in H as [[key comps] [Hart H]]. cbn [snd] in H.
  apply in_flat_map in H as [[bv snaps] [Hbr H]]. cbn [snd] in H.
  apply in_map_iff in H as [x [<- Hx]]. apply to_delete_incl in Hx.
  apply (Permutation_in _ (group_artifacts_perm components)).
  apply in_flat_map. exists (key, comps). split; [exact Hart|]. cbn [snd].
  assert (Hf : In (component x) (filter parses_b comps)).
  { apply (Permutation_in _ (version_branches_perm comps)).
    apply in_map, in_flat_map. exists (bv, snaps). now split. }
  now apply filter_In in Hf.
Qed.

(** X7.  Whatever the configuration and however the pass ends, every
    request that [cleanup_job] sends is a GET, or the DELETE request of
    a deletion candidate of the listing it fetched; without a fetched
    listing it sends GET requests only. *)
Theorem pass_requests (fuel : nat) (record record' : RunRecord)
        (w w' : World) (t : list event) (r : Request) (a : attempt) :
  cleanup_job fuel record w = Some (record', w', t) ->
  In (EvRequest r a) t ->
  method r = "GET" \/
  exists components w1 t1 c,
    get_all_components_paginated fuel w
    = Some (Return (Some components), w1, t1) /\
    In c (deletion_candidates components) /\
    In c components /\
    r = delete_request c.
Proof.
  unfold cleanup_job, cleanup_try.
  destruct (get_all_components_paginated fuel w)
    as [[[[[components|]|e] w1] t1]|] eqn:Eget; [| | |discriminate].
  - pose proof (get_all_io _ _ _ _ _ Eget) as Hio.
    pose proof (only_process_snapshots components w1) as Hp.
    destruct (process_snapshots components w1) as [[[[|]|e] w2] t2];
      simpl in Hp; intro H; injection H as _ _ <-; intro Hin;
      (destruct Hin as [Hin|Hin]; [discriminate|]);
      apply in_app_or in Hin as [Hin|Hin];
      try (apply in_app_or in Hin as [Hin|Hin]);
      try (rewrite Forall_forall in Hio; left; exact (Hio _ Hin));
      try (rewrite Forall_forall in Hp;
           destruct (Hp _ Hin) as [c [Hc ->]]; right;
           exists components, w1, t1, c;
           repeat split; try assumption;
           now apply candidates_listed);
      simpl in Hin; intuition discriminate.
  - pose proof (get_all_io _ _ _ _ _ Eget) as Hio.
    intro H. injection H as _ _ <-. intro Hin.
    destruct Hin as [Hin|Hin]; [discriminate|].
    apply in_app_or in Hin as [Hin|Hin].
    + rewrite Forall_forall in Hio. left. exact (Hio _ Hin).
    + simpl in Hin. intuition discriminate.
  - pose proof (get_all_io _ _ _ _ _ Eget) as Hio.
    intro H. injection H as _ _ <-. intro Hin.
    destruct Hin as [Hin|Hin]; [discriminate|].
    apply in_app_or in Hin as [Hin|Hin].
    + rewrite Forall_forall in Hio. left. exact (Hio _ Hin).
    + simpl in Hin. intuition discriminate.
Qed.

(* =============================================================== *)
(** ** What the pagination loop returns *)

(** The items a page contributes: those of a body that decoded, when
    the attempt raised no request exception. *)
Definition page_items (a : attempt) : list Component :=
  match request_exception a, a with
  | None, Answer response =>
      match body response with
      | Some data => match items data with Some l => l | None => [] end
      | None => []
      end
  | _, _ => []
  end.

(** The items of all the pages answered in a trace, in order. *)
Definition listed (t : list event) : list Component :=
  flat_map page_items (attempt_results t).

Lemma listed_app (t1 t2 : list event) :
  listed (t1 ++ t2) = listed t1 ++ listed t2.
Proof. unfold listed. now rewrite attempt_results_app, flat_map_app. Qed.

Lemma failed_attempts_list_nothing (l : list attempt) :
  Forall (fun a => request_exception a <> None) l ->
  flat_map page_items l = [].
Proof.
  induction 1 as [|a l Ha _ IH]; [reflexivity|].
  cbn [flat_map]. rewrite IH, app_nil_r. unfold page_items.
  destruct (request_exception a); [reflexivity | now elim Ha].
Qed.

Lemma fetch_page_items (st : fetch_state) (w w1 : World)
      (result : page_result) (t1 : list event) :
  fetch_page st w = (Return result, w1, t1) ->
  match result with
  | NextPage st' => all_components st' = all_components st ++ listed t1
  | LastPage all => all = all_components st ++ listed t1
  | FetchFailed => True
  end.
Proof.
  unfold fetch_page, try_except, bind, json, log, emit, ret, raise.
  pose proof (attempts_returns
                (mkRequest "GET" components_url (username cfg, password cfg)
                           (page_params (continuation_token st)))
                (Z.to_nat (max_retries cfg)) 0 w) as Hret.
  fold (make_api_request "GET" components_url (username cfg, password cfg)
          (page_params (continuation_token st))) in Hret.
  destruct (make_api_request "GET" components_url
              (username cfg, password cfg)
              (page_params (continuation_token st)) w) as [[r w2] t2].
  destruct r as [[response|]|e].
  - destruct (Hret _ _ _ eq_refl) as [fails [Hf [Ha Hn]]].
    assert (Hl : listed t2
                 = match body response with
                   | Some data =>
                       match items data with Some l => l | None => [] end
                   | None => []
                   end).
    { unfold listed. rewrite Hf, flat_map_app.
      rewrite (failed_attempts_list_nothing _ Ha). cbn [flat_map app].
      rewrite app_nil_r. unfold page_items. now rewrite Hn. }
    destruct (body response) as [data|].
    + destruct (truthy (continuationToken data)); simpl;
        intro H; injection H as <- _ <-; cbn [all_components];
        change (EvLog INFO (LogFetchingPage (page_num st)) :: ?x)
          with ([EvLog INFO (LogFetchingPage (page_num st))] ++ x);
        rewrite !listed_app, Hl; cbn [listed attempt_results flat_map];
        now rewrite ?app_nil_r.
    + simpl. intro H. now injection H as <- _ _.
  - discriminate.
  - destruct e; simpl; intro H; try discriminate; now injection H as <- _ _.
Qed.

Lemma fetch_loop_items (fuel : nat) :
  forall st w all w' t,
    fetch_loop fuel st w = Some (Return (Some all), w', t) ->
    all = all_components st ++ listed t.
Proof.
  induction fuel as [|fuel IH]; intros st w all w' t H; [discriminate|].
  cbn [fetch_loop] in H.
  pose proof (fetch_page_items st w) as Hp.
  destruct (fetch_page st w) as [[[[st'|all'|]|e] w1] t1];
    try discriminate; specialize (Hp _ _ _ eq_refl).
  - destruct (fetch_loop fuel st' w1) as [[[r2 w2] t2]|] eqn:E;
      [|discriminate].
    injection H as -> _ <-. rewrite (IH _ _ _ _ _ E), Hp, listed_app.
    now rewrite app_assoc.
  - injection H as <- _ <-. rewrite listed_app. cbn. now rewrite app_nil_r.
Qed.

(** X8.  When [get_all_components_paginated] returns a list, it is the
    items of every page that was answered, page after page in the order
    of the requests; attempts that were retried contribute nothing. *)
Theorem fetch_aggregates_pages (fuel : nat) (w w' : World)
        (all : list Component) (t : list event) :
  get_all_components_paginated fuel w = Some (Return (Some all), w', t) ->
  all = listed t.
Proof.
  unfold get_all_components_paginated.
  destruct (fetch_loop fuel initial_fetch w) as [[[r w2] t2]|] eqn:E;
    [|discriminate].
  intro H. injection H as -> _ <-.
  now rewrite (fetch_loop_items _ _ _ _ _ _ E).
Qed.

(** X9.  A page whose body is not JSON ends the fetch like a page that
    exhausts its retries: the result is [None], the pass is recorded as
    failed and [delete_component] is never called. *)
Theorem fetch_invalid_json
    (k fuel : nat) (w w1 w2 : World) (st : fetch_state)
    (response : Response Body) (t2 : list event) (record : RunRecord) :
  pages k initial_fetch w = Some (st, w1) ->
  make_api_request "GET" components_url (username cfg, password cfg)
                   (page_params (continuation_token st)) w1
  = (Return (Some response), w2, t2) ->
  body response = None ->
  (k < fuel)%nat ->
  exists t,
    get_all_components_paginated fuel w = Some (Return None, w2, t) /\
    exists t',
      cleanup_job fuel record w
      = Some (mkRunRecord (Some (now_isoformat w)) "failed", w2, t') /\
      Forall (fun ev => is_delete_request ev = false) t' /\
      delete_calls t' = [].
Proof.
  intros Hk Hreq Hbody Hfuel.
  destruct (fetch_loop_pages _ _ _ _ _ Hk) as [tk Hloop].
  assert (Hpage : exists tf, fetch_page st w1 = (Return FetchFailed, w2, tf)).
  { unfold fetch_page, try_except, bind, json, log, emit.
    rewrite Hreq, Hbody. simpl. now eexists. }
  destruct Hpage as [tf Hpage].
  assert (Hget : get_all_components_paginated fuel w
                 = Some (Return None, w2,
                         EvLog INFO LogFetching :: tk ++ tf)).
  { unfold get_all_components_paginated.
    replace fuel with (k + S (fuel - S k))%nat by lia.
    rewrite Hloop. cbn [fetch_loop]. now rewrite Hpage. }
  eexists. split; [exact Hget|].
  unfold cleanup_job, cleanup_try. rewrite Hget.
  eexists. split; [reflexivity|].
  pose proof (get_all_io _ _ _ _ _ Hget) as Hio.
  split.
  - constructor; [reflexivity|]. apply Forall_app. split.
    + now apply io_get_no_delete.
    + repeat constructor.
  - apply io_quiet in Hio. destruct Hio as [QA _].
    change (delete_calls
              (EvLog INFO LogStart
                 :: (EvLog INFO LogFetching :: tk ++ tf)
                 ++ [EvLog INFO (LogCompleted "failed")]))
      with (delete_calls
              ((EvLog INFO LogFetching :: tk ++ tf)
                 ++ [EvLog INFO (LogCompleted "failed")])).
    rewrite delete_calls_app, QA. reflexivity.
Qed.

(* =============================================================== *)
(** ** A delay that time.sleep refuses *)


(* =============================================================== *)
(** ** The run record after a pass *)

Lemma cleanup_job_started (fuel : nat) (record record' : RunRecord)
      (w w' : World) (t : list event) :
  cleanup_job fuel record w = Some (record', w', t) ->
  last_run_time record' = Some (now_isoformat w) /\
  In (last_run_status record') ["success"; "partial_failure"; "failed"].
Proof.
  unfold cleanup_job, cleanup_try.
  destruct (get_all_components_paginated fuel w)
    as [[[[[components|]|e] w2] t2]|]; try discriminate.
  - destruct (process_snapshots components w2) as [[[[|]|e] w3] t3];
      intro H; injection H as <- _ _; simpl; auto.
  - intro H. injection H as <- _ _. simpl. auto.
  - intro H. injection H as <- _ _. simpl. auto.
Qed.

(** X11.  Every pass that ends leaves a run record whose time is the
    time at which the pass started and whose status is success,
    partial_failure or failed; the pass logs its start first and, last,
    its completion with the status it recorded. *)
Theorem cleanup_job_record (fuel : nat) (record record' : RunRecord)
        (w w' : World) (t : list event) :
  cleanup_job fuel record w = Some (record', w', t) ->
  last_run_time record' = Some (now_isoformat w) /\
  In (last_run_status record') ["success"; "partial_failure"; "failed"] /\
  hd_error t = Some (EvLog INFO LogStart) /\
  last_opt t
  = Some (EvLog INFO (LogCompleted (last_run_status record'))).
Proof.
  intro H. destruct (cleanup_job_started _ _ _ _ _ _ H) as [Ht Hs].
  split; [exact Ht|]. split; [exact Hs|].
  unfold cleanup_job in H.
  destruct (cleanup_try fuel w) as [[[[status|e] w1] t1]|];
    [| |discriminate]; injection H as <- _ <-;
    cbn [last_run_status hd_error]; (split; [reflexivity|]).
  - change (EvLog INFO LogStart :: t1 ++ [EvLog INFO (LogCompleted status)])
      with ((EvLog INFO LogStart :: t1) ++ [EvLog INFO (LogCompleted status)]).
    apply last_opt_end.
  - change (EvLog INFO LogStart
              :: t1 ++ [EvLog ERROR (LogCleanupError e);
                        EvLog INFO (LogCompleted "failed")])
      with (EvLog INFO LogStart
              :: t1 ++ [EvLog ERROR (LogCleanupError e)]
                    ++ [EvLog INFO (LogCompleted "failed")]).
    rewrite app_assoc.
    change (EvLog INFO LogStart
              :: (t1 ++ [EvLog ERROR (LogCleanupError e)])
                   ++ [EvLog INFO (LogCompleted "failed")])
      with ((EvLog INFO LogStart
               :: t1 ++ [EvLog ERROR (LogCleanupError e)])
              ++ [EvLog INFO (LogCompleted "failed")]).
    apply last_opt_end.
Qed.

(* =============================================================== *)
(** ** What a parsed version holds *)

Lemma int_acc_nonneg (s : string) :
  forall acc, 0 <= acc -> all_digits s = true -> 0 <= int_acc acc s.
Proof.
  induction s as [|c s IH]; intros acc Hacc Hs; [exact Hacc|].
  cbn [all_digits] in Hs. apply andb_prop in Hs as [Hc Hs].
  cbn [int_acc]. apply IH; [|exact Hs].
  unfold is_digit in Hc. apply andb_prop in Hc as [Hlo _].
  apply Nat.leb_le in Hlo. unfold digit_value. lia.
Qed.

Lemma int_acc_bound (s : string) :
  forall acc, 0 <= acc -> all_digits s = true ->
              int_acc acc s < (acc + 1) * 10 ^ Z.of_nat (slen s).
Proof.
  induction s as [|c s IH]; intros acc Hacc Hs.
  - cbn [int_acc]. change (slen "") with O. simpl. lia.
  - cbn [all_digits] in Hs. apply andb_prop in Hs as [Hc Hs].
    unfold is_digit in Hc. apply andb_prop in Hc as [Hlo Hhi].
    apply Nat.leb_le in Hlo. apply Nat.leb_le in Hhi.
    cbn [int_acc]. rewrite slen_cons, Nat2Z.inj_succ, Z.pow_succ_r by lia.
    assert (Hd : 0 <= digit_value c <= 9) by (unfold digit_value; lia).
    specialize (IH (10 * acc + digit_value c) ltac:(lia) Hs).
    assert (Hp : 0 < 10 ^ Z.of_nat (slen s)) by (apply Z.pow_pos_nonneg; lia).
    nia.
Qed.

(** What the [date] constructor accepts, on the calendar. *)
Lemma date_accepts_calendar (y m d : Z) :
  date_accepts y m d = true ->
  1 <= y <= 9999 /\ 1 <= m <= 12 /\ 1 <= d <= 31 /\
  (In m [4; 6; 9; 11] -> d <= 30) /\
  (m = 2 -> d <= 29) /\
  (m = 2 -> d = 29 ->
   y mod 4 = 0 /\ (y mod 100 <> 0 \/ y mod 400 = 0)).
Proof.
  unfold date_accepts, in_range. intro H.
  repeat match goal with
         | X : _ && _ = true |- _ => apply andb_prop in X as [? ?]
         end.
  repeat match goal with
         | X : (_ <=? _) = true |- _ => apply Z.leb_le in X
         end.
  match goal with X : d <= days_in_month y m |- _ => rename X into H1 end.
  assert (Hm : m = 1 \/ m = 2 \/ m = 3 \/ m = 4 \/ m = 5 \/ m = 6 \/
               m = 7 \/ m = 8 \/ m = 9 \/ m = 10 \/ m = 11 \/ m = 12)
    by lia.
  pose proof (days_in_month_le y m) as Hle.
  split; [lia|]. split; [lia|]. split; [lia|].
  split; [|split].
  - intros [E|[E|[E|[E|[]]]]]; subst m; exact H1.
  - intros ->. unfold days_in_month in H1. cbn [Z.eqb Pos.eqb andb] in H1.
    destruct (is_leap y); simpl in H1; lia.
  - intros -> ->. unfold days_in_month in H1. cbn [Z.eqb Pos.eqb andb] in H1.
    unfold is_leap in H1.
    destruct (y mod 4 =? 0) eqn:E4; [|simpl in H1; lia].
    apply Z.eqb_eq in E4. split; [exact E4|].
    destruct (y mod 100 =? 0) eqn:E100; [|apply Z.eqb_neq in E100; now left].
    destruct (y mod 400 =? 0) eqn:E400; [apply Z.eqb_eq in E400; now right|].
    simpl in H1. lia.
Qed.

(** X12.  Whatever [parse_snapshot_version] returns as a match for a
    version holds: the text of the version before one of its hyphens,
    with "-SNAPSHOT" appended; a moment of the calendar, with year
    1..9999, month 1..12, a day that exists in that month (at most 30 in
    April, June, September and November, at most 29 in February and 29
    only in a leap year), hour 0..23, minute and second 0..59; and a
    build number that is not negative and has at most
    [int_max_str_digits] digits. *)
Theorem parsed_version_wellformed (s bv : string) (dt : datetime) (n : Z) :
  parse_snapshot_version s = Return (Some (bv, dt, n)) ->
  (exists base rest,
      s = (base ++ "-" ++ rest)%string /\
      bv = (base ++ "-SNAPSHOT")%string) /\
  1 <= year dt <= 9999 /\ 1 <= month dt <= 12 /\ 1 <= day dt <= 31 /\
  (In (month dt) [4; 6; 9; 11] -> day dt <= 30) /\
  (month dt = 2 -> day dt <= 29) /\
  (month dt = 2 -> day dt = 29 ->
   year dt mod 4 = 0 /\ (year dt mod 100 <> 0 \/ year dt mod 400 = 0)) /\
  0 <= hour dt <= 23 /\ 0 <= minute dt <= 59 /\ 0 <= second dt <= 59 /\
  0 <= n < 10 ^ int_max_str_digits.
Proof.
  intro H.
  destruct (parse_sound _ _ _ _ H)
    as [base [d8 [d6 [b [nl [[[_ [_ [_ [_ [_ [Db _]]]]]] [Hs _]]
                               [C [-> [-> Lb]]]]]]]]].
  split; [exists base; eexists; split; [exact Hs | reflexivity]|].
  unfold calendar in C.
  destruct (date_accepts _ _ _) eqn:ED; [|discriminate].
  destruct (time_accepts _ _ _) eqn:ET; [|discriminate].
  injection C as <-. cbn [year month day hour minute second].
  apply date_accepts_calendar in ED.
  destruct ED as [HY [HM [HD [H30 [H29 Hleap]]]]].
  unfold time_accepts, in_range in ET.
  repeat match goal with
         | X : _ && _ = true |- _ => apply andb_prop in X as [? ?]
         end.
  repeat match goal with
         | X : (_ <=? _) = true |- _ => apply Z.leb_le in X
         end.
  repeat (split; [assumption || lia|]).
  split; [now apply int_acc_nonneg|].
  pose proof (int_acc_bound b 0 ltac:(lia) Db) as Hb.
  fold (decimal b) in Hb.
  assert (10 ^ Z.of_nat (slen b) <= 10 ^ int_max_str_digits)
    by (apply Z.pow_le_mono_r; lia).
  lia.
Qed.

(* =============================================================== *)
(** ** The health endpoint *)

(** [os.access('/var/log/nexus_cleanup.log', os.W_OK)]. *)
Variable log_file_writable : World -> bool.

(** [psutil.disk_usage('/').free], in bytes. *)
Variable disk_free : World -> Z.

(** [SCHEDULE_TIME] and [VERSION] of the environment. *)
Variable schedule_time : string.
Variable app_version : string.

(** The values held by the [checks] dictionary. *)
Inductive pyvalue :=
| PyBool (b : bool)
| PyNone
| PyStr (s : string).

(** Truth value: [None] and the empty string are false. *)
Definition truth (v : pyvalue) : bool :=
  match v with
  | PyBool b => b
  | PyNone => false
  | PyStr EmptyString => false
  | PyStr (String _ _) => true
  end.

Definition optional_str (o : option string) : pyvalue :=
  match o with Some s => PyStr s | None => PyNone end.

Record HealthBody := mkHealthBody {
  health_status : string;
  checks : list (string * list (string * pyvalue));
  health_version : string;
  timestamp : string
}.

(** The [Response] that the endpoint returns. *)
Record HealthResponse := mkHealthResponse {
  content : HealthBody;
  http_status : Z;
  media_type : string
}.

Definition observe {A : Type} (f : World -> A) : M World A :=
  fun w => (Return (f w), w, []).

Definition status_request : Request :=
  mkRequest "GET" (nexus_url cfg ++ "/service/rest/v1/status")%string
            (username cfg, password cfg) [].

(** One [requests.get], no retry; any exception gives [False]. *)
Definition check_nexus_connectivity : M World bool :=
  a <- request status_request ;;
  match a with
  | Answer response => ret (status_code response =? 200)
  | Failure _ => ret false
  end.

Definition all_values (category : string * list (string * pyvalue)) : bool :=
  forallb (fun entry => truth (snd entry)) (snd category).

Definition health_check (record : RunRecord) : M World HealthResponse :=
  writable <- observe log_file_writable ;;
  free <- observe disk_free ;;
  reachable <- check_nexus_connectivity ;;
  let checks :=
    [("storage",
      [("log_file_writable", PyBool writable);
       ("disk_space", PyBool (free >? 100 * 1024 * 1024))]);
     ("connectivity",
      [("nexus_reachable", PyBool reachable)]);
     ("application",
      [("last_run_time", optional_str (last_run_time record));
       ("last_run_status", PyStr (last_run_status record));
       ("schedule", PyStr schedule_time)])] in
  let is_healthy := forallb all_values checks in
  let status_code := if is_healthy then 200 else 503 in
  now <- observe now_isoformat ;;
  ret (mkHealthResponse
         (mkHealthBody (if is_healthy then "healthy" else "unhealthy")
                       checks app_version now)
         status_code "application/json").

(** The probe was answered with status 200. *)
Definition answered_200 (a : attempt) : Prop :=
  exists response, a = Answer response /\ status_code response = 200.

Lemma truth_str (s : string) : truth (PyStr s) = true <-> s <> "".
Proof. destruct s; simpl; split; congruence. Qed.

(** Whether the probe was answered 200, as a truth value. *)
Definition probe_ok (a : attempt) : bool :=
  match a with
  | Answer response => status_code response =? 200
  | Failure _ => false
  end.

(** The [checks] dictionary for a world and a probe outcome. *)
Definition checks_of (record : RunRecord) (w : World) (a : attempt)
  : list (string * list (string * pyvalue)) :=
  [("storage",
    [("log_file_writable", PyBool (log_file_writable w));
     ("disk_space", PyBool (disk_free w >? 100 * 1024 * 1024))]);
   ("connectivity",
    [("nexus_reachable", PyBool (probe_ok a))]);
   ("application",
    [("last_run_time", optional_str (last_run_time record));
     ("last_run_status", PyStr (last_run_status record));
     ("schedule", PyStr schedule_time)])].

Lemma health_check_run (record : RunRecord) (w w1 : World) (a : attempt) :
  session_request status_request w = (a, w1) ->
  health_check record w
  = (Return
       (mkHealthResponse
          (mkHealthBody
             (if forallb all_values (checks_of record w a)
              then "healthy" else "unhealthy")
             (checks_of record w a) app_version (now_isoformat w1))
          (if forallb all_values (checks_of record w a) then 200 else 503)
          "application/json"),
     w1, [EvRequest status_request a]).
Proof.
  intro Es.
  unfold health_check, check_nexus_connectivity, observe, bind, request, ret.
  rewrite Es. now destruct a.
Qed.

Lemma probe_ok_answered (a : attempt) : probe_ok a = true <-> answered_200 a.
Proof.
  unfold probe_ok, answered_200. destruct a as [response|detail].
  - rewrite Z.eqb_eq. split.
    + intro H. now exists response.
    + intros [r [E H]]. now injection E as ->.
  - split; [discriminate | intros [r [E _]]; discriminate].
Qed.

Lemma checks_verdict (record : RunRecord) (w : World) (a : attempt) :
  forallb all_values (checks_of record w a) = true
  <-> log_file_writable w = true /\
      100 * 1024 * 1024 < disk_free w /\
      answered_200 a /\
      (exists started,
          last_run_time record = Some started /\ started <> "") /\
      last_run_status record <> "" /\
      schedule_time <> "".
Proof.
  unfold checks_of. cbn [forallb all_values snd]. rewrite !andb_true_r.
  rewrite !andb_true_iff, !truth_str.
  change (truth (PyBool (log_file_writable w))) with (log_file_writable w).
  change (truth (PyBool (disk_free w >? 100 * 1024 * 1024)))
    with (disk_free w >? 100 * 1024 * 1024).
  change (truth (PyBool (probe_ok a))) with (probe_ok a).
  rewrite probe_ok_answered, Z.gtb_ltb, Z.ltb_lt.
  assert (Ht : truth (optional_str (last_run_time record)) = true
               <-> exists started,
                   last_run_time record = Some started /\ started <> "").
  { destruct (last_run_time record) as [s|]; cbn [optional_str].
    - rewrite truth_str. split.
      + intro H. now exists s.
      + intros [s' [E H]]. now injection E as ->.
    - split; [discriminate | intros [s' [E _]]; discriminate]. }
  rewrite Ht. tauto.
Qed.

(** X13.  [health_check] always answers: it probes the status endpoint
    with exactly one GET, without retry or sleep, and answers 200 and
    "healthy" exactly when the log file is writable, more than 100 MiB
    are free, the probe was answered 200, a pass has started, and the
    recorded status and the schedule are not empty; otherwise it
    answers 503 and "unhealthy". *)
Theorem health_check_verdict (record : RunRecord) (w : World) :
  exists response a w1,
    session_request status_request w = (a, w1) /\
    health_check record w
    = (Return response, w1, [EvRequest status_request a]) /\
    (http_status response = 200 <->
     log_file_writable w = true /\
     100 * 1024 * 1024 < disk_free w /\
     answered_200 a /\
     (exists started, last_run_time record = Some started /\ started <> "") /\
     last_run_status record <> "" /\
     schedule_time <> "") /\
    (http_status response <> 200 -> http_status response = 503) /\
    health_status (content response)
    = (if http_status response =? 200 then "healthy" else "unhealthy").
Proof.
  destruct (session_request status_request w) as [a w1] eqn:Es.
  eexists _, a, w1. split; [reflexivity|].
  split; [exact (health_check_run record w w1 a Es)|].
  cbn [http_status content health_status].
  pose proof (checks_verdict record w a) as Hverdict.
  destruct (forallb all_values (checks_of record w a)).
  - split; [|split; [|reflexivity]].
    + split; [intros _; now apply Hverdict | reflexivity].
    + intro H. now elim H.
  - split; [|split; [|reflexivity]].
    + split; [discriminate|].
      intro H. apply (proj2 Hverdict) in H. discriminate.
    + reflexivity.
Qed.

(** X14.  Before the first pass the endpoint answers 503, whatever the
    storage, the disk and the remote repository are: the run record
    still holds no start time. *)
Theorem health_before_first_pass (w : World) :
  exists response w1 t,
    health_check initial_record w = (Return response, w1, t) /\
    http_status response = 503 /\
    health_status (content response) = "unhealthy".
Proof.
  destruct (session_request status_request w) as [a w1] eqn:Es.
  rewrite (health_check_run initial_record w w1 a Es).
  pose proof (checks_verdict initial_record w a) as Hv.
  destruct (forallb all_values (checks_of initial_record w a)).
  - destruct (proj1 Hv eq_refl) as [_ [_ [_ [[s [Hs _]] _]]]]. discriminate.
  - eexists _, w1, _. split; [reflexivity|]. now split.
Qed.

(** X15.  After a pass, whatever status it recorded, and so after a
    failed pass too, the endpoint answers 200 exactly when the log file
    is writable, more than 100 MiB are free and the probe was answered
    200, provided the clock's text and the schedule are not empty. *)
Theorem health_after_pass
    (fuel : nat) (record record' : RunRecord) (w w' : World)
    (t : list event) (w2 : World) :
  (forall w0, now_isoformat w0 <> "") -> schedule_time <> "" ->
  cleanup_job fuel record w = Some (record', w', t) ->
  exists response a w3,
    session_request status_request w2 = (a, w3) /\
    health_check record' w2
    = (Return response, w3, [EvRequest status_request a]) /\
    (http_status response = 200 <->
     log_file_writable w2 = true /\
     100 * 1024 * 1024 < disk_free w2 /\
     answered_200 a).
Proof.
  intros Hnow Hsched Hjob.
  destruct (cleanup_job_started _ _ _ _ _ _ Hjob) as [Ht Hst].
  destruct (session_request status_request w2) as [a w3] eqn:Es.
  eexists _, a, w3. split; [reflexivity|].
  split; [exact (health_check_run record' w2 w3 a Es)|].
  cbn [http_status].
  pose proof (checks_verdict record' w2 a) as Hv.
  assert (Happ : (exists started,
                     last_run_time record' = Some started /\ started <> "") /\
                 last_run_status record' <> "" /\ schedule_time <> "").
  { split; [|split; [|exact Hsched]].
    - exists (now_isoformat w). split; [exact Ht | apply Hnow].
    - simpl in Hst. destruct Hst as [<-|[<-|[<-|[]]]]; discriminate. }
  destruct (forallb all_values (checks_of record' w2 a)).
  - split; [intros _|reflexivity].
    destruct (proj1 Hv eq_refl) as [H1 [H2 [H3 _]]]. now repeat split.
  - split; [discriminate|].
    intros [H1 [H2 H3]].
    assert (F : false = true) by (apply Hv; tauto). discriminate.
Qed.

(* =============================================================== *)
(** ** What is announced and what is deleted *)


(* =============================================================== *)
(** ** The retention decision of one branch, as the pass carries it out *)












End Program.

Example parse_ex1 :
  parse_snapshot_version "1.2.0-20240115.083045-7"
  = Return (Some ("1.2.0-SNAPSHOT", mk_datetime 2024 1 15 8 30 45, 7)).
Proof. reflexivity. Qed.

Example parse_ex2 : parse_snapshot_version "1.0-SNAPSHOT" = Return None.
Proof. reflexivity. Qed.

Example parse_ex3 :
  parse_snapshot_version "1.0-20230229.010000-1" = Return None.
Proof. reflexivity. Qed.

Example parse_ex4 :
  parse_snapshot_version "a-b-20240229.235959-0012"
  = Return (Some ("a-b-SNAPSHOT", mk_datetime 2024 2 29 23 59 59, 12)).
Proof. reflexivity. Qed.

(** The example of the specification: three builds, two retained. *)
Example retention_example :
  to_delete example_cfg [snap1; snap2; snap3] = [snap1] /\
  keep example_cfg [snap1; snap2; snap3] = [snap3; snap2] /\
  deletion_candidates example_cfg [lib1; lib_plain; lib3; lib2] = [lib1].
Proof. repeat split. Qed.

(* ================================================================= *)
(** ** The theorems at work on the example data *)




Lemma fetch_all_or_nothing_witness :
  exists t,
    cleanup_job (list attempt) scripted no_time clock example_cfg 2
                initial_record
                [page_with_token [lib1; lib2] "next";
                 status_only 503; status_only 503; status_only 503;
                 status_only 204]
    = Some (mkRunRecord (Some "2024-01-20T03:00:00") "failed",
            [status_only 204], t) /\
    Forall (fun ev => is_delete_request ev = false) t /\
    delete_calls t = [].
Proof.
  assert (H2 : exists n e t2,
             make_api_request (list attempt) scripted no_time example_cfg
               "GET" (components_url example_cfg)
               (username example_cfg, password example_cfg)
               (page_params example_cfg (Some "next"))
               [status_only 503; status_only 503; status_only 503;
                status_only 204]
             = (Raise (NexusAPIError n e), [status_only 204], t2))
    by (eexists _, _, _; vm_compute; reflexivity).
  destruct H2 as [n [e [t2 H2]]].
  exact (proj2 (fetch_all_or_nothing (list attempt) scripted no_time clock
                  example_cfg 1 2
                  [page_with_token [lib1; lib2] "next";
                   status_only 503; status_only 503; status_only 503;
                   status_only 204]
                  [status_only 503; status_only 503; status_only 503;
                   status_only 204]
                  [status_only 204]
                  (mkFetch [lib1; lib2] (Some "next") 2)
                  n e t2 initial_record eq_refl H2 ltac:(lia))).
Defined.

Lemma long_build_digits :
  all_digits long_build = true /\ long_build <> "" /\
  Z.of_nat (slen long_build) = int_max_str_digits + 1.
Proof.
  split; [vm_compute; reflexivity|]. split; [|vm_compute; reflexivity].
  intro H. apply (f_equal slen) in H. vm_compute in H. discriminate.
Qed.

(** C4.  Three strings on which the parser leaves the claim.  A version
    of the published pattern with a calendar date whose build number
    has one digit more than [int] converts: [int] stands before the
    [try] and its [ValueError] leaves the parser.  A version followed
    by a line feed is not of the published pattern, yet parses.  A
    version of the published pattern whose base holds a line feed does
    not parse. *)
Lemma parse_snapshot_version_failing_inputs :
  (pattern_form long_version "1.0" "20240115" "083045" long_build /\
   calendar "20240115" "083045" = Some (mk_datetime 2024 1 15 8 30 45) /\
   parse_snapshot_version long_version = Raise ValueError) /\
  ((~ exists base d8 d6 b,
        pattern_form version_with_final_newline base d8 d6 b) /\
   parse_snapshot_version version_with_final_newline
   = Return (Some ("1.0-SNAPSHOT", mk_datetime 2024 1 15 8 30 45, 7))) /\
  (pattern_form version_with_newline_in_base
                ("a" ++ String newline "b") "20240115" "083045" "7" /\
   calendar "20240115" "083045" = Some (mk_datetime 2024 1 15 8 30 45) /\
   parse_snapshot_version version_with_newline_in_base = Return None).
Proof.
  destruct long_build_digits as [Hd [Hn _]].
  split; [|split; split].
  - split; [|split; [reflexivity | vm_compute; reflexivity]].
    unfold pattern_form. repeat split; try reflexivity; assumption.
  - intros [base [d8 [d6 [b F]]]].
    destruct (pattern_form_last _ _ _ _ _ F) as [c [Hc Dc]].
    vm_compute in Hc. injection Hc as <-. discriminate.
  - reflexivity.
  - unfold pattern_form. repeat split; discriminate.
  - split; reflexivity.
Qed.

Lemma parse_snapshot_version_timestamped_witness :
  parse_snapshot_version "1.2.0-20240115.083045-7"
  = Return (Some ("1.2.0-SNAPSHOT", mk_datetime 2024 1 15 8 30 45, 7)) /\
  parse_snapshot_version "1.0-SNAPSHOT" = Return None.
Proof.
  split.
  - assert (F : timestamped_form "1.2.0-20240115.083045-7"
                  "1.2.0" "20240115" "083045" "7" "").
    { unfold timestamped_form, pattern_form, line_end.
      repeat split; try reflexivity; try discriminate. now left. }
    apply (proj1 (proj1 (parse_snapshot_version_timestamped
                           "1.2.0-20240115.083045-7") _ _ _ _ _ F)).
    vm_compute. discriminate.
  - apply (proj2 (parse_snapshot_version_timestamped "1.0-SNAPSHOT")).
    intros [base [d8 [d6 [b [nl [[_ [_ [L8 [_ [L6 _]]]]] [Hs _]]]]]]].
    apply (f_equal slen) in Hs. rewrite !slen_app, L8, L6 in Hs.
    change (slen "1.0-SNAPSHOT") with 12%nat in Hs.
    change (slen "-") with 1%nat in Hs.
    change (slen ".") with 1%nat in Hs. lia.
Defined.



Lemma unparseable_never_deleted_witness :
  ~ In lib_plain (deletion_candidates example_cfg
                    [lib1; lib_plain; lib3; lib2]) /\
  ~ In lib_plain
      (delete_calls
         (snd (process_snapshots unit (always 204) no_time example_cfg
                 [lib1; lib_plain; lib3; lib2] tt))).
Proof.
  exact (proj2 (unparseable_never_deleted unit (always 204) no_time
                  example_cfg [lib1; lib_plain; lib3; lib2] lib_plain tt
                  eq_refl)).
Defined.

(** C7.  A dry-run pass over a listing that holds a build number of one
    digit more than [int] converts: the [ValueError] of [int] leaves
    [parse_snapshot_version] and [process_snapshots], the pass is
    recorded as failed, and the delete set of the branch 1.0-SNAPSHOT,
    one component, is not announced. *)
Lemma dry_run_long_build_fails :
  dry_run dry_cfg = true /\
  deletion_candidates dry_cfg [lib1; lib2; lib3; lib_long] = [lib1] /\
  exists w' t,
    cleanup_job (list attempt) scripted no_time clock dry_cfg 1
                initial_record [one_page [lib1; lib2; lib3; lib_long]]
    = Some (mkRunRecord (Some "2024-01-20T03:00:00") "failed", w', t) /\
    marked t = [] /\
    last_opt (removelast t) = Some (EvLog ERROR (LogCleanupError ValueError)).
Proof.
  split; [reflexivity|]. split; [vm_compute; reflexivity|].
  eexists _, _. split; [vm_compute; reflexivity|].
  split; vm_compute; reflexivity.
Qed.

Lemma dry_run_deletes_nothing_witness :
  exists t,
    process_snapshots unit (always 204) no_time dry_cfg
                      [lib1; lib_plain; lib3; lib2] tt
    = (Return true, tt, t) /\
    marked t = [1%nat].
Proof.
  exact (proj1 (proj2 (dry_run_deletes_nothing unit (always 204) no_time
                         clock dry_cfg
                         [lib1; lib_plain; lib3; lib2] tt eq_refl)
                  eq_refl)).
Defined.



Lemma zero_retries_returns_none_witness :
  make_api_request unit (always 200) no_time no_attempt_cfg
                   "GET" "http://nexus:8081/x" ("admin", "admin123") [] tt
  = (Return None, tt, []) /\
  (exists t,
      get_all_components_paginated unit (always 200) no_time no_attempt_cfg
                                   1 tt
      = Some (Raise AttributeError, tt, t) /\ attempt_results t = []) /\
  (exists t,
      delete_component unit (always 200) no_time no_attempt_cfg lib1 tt
      = (Raise AttributeError, tt, t) /\ attempt_results t = []).
Proof.
  exact (zero_retries_returns_none unit (always 200) no_time no_attempt_cfg
           "GET" "http://nexus:8081/x" ("admin", "admin123") [] tt 0 lib1
           eq_refl).
Defined.

(** C10.  A version with an empty base, a calendar date and a build
    number of one digit more than [int] converts does not parse: the
    [ValueError] of [int] leaves the parser.  With a build number
    within the limit the empty base is accepted. *)
Lemma parse_empty_base_long_build :
  (pattern_form long_version_empty_base "" "20240115" "083045" long_build /\
   calendar "20240115" "083045" = Some (mk_datetime 2024 1 15 8 30 45) /\
   parse_snapshot_version long_version_empty_base = Raise ValueError) /\
  parse_snapshot_version "-20240115.083045-7"
  = Return (Some ("-SNAPSHOT", mk_datetime 2024 1 15 8 30 45, 7)).
Proof.
  destruct long_build_digits as [Hd [Hn _]].
  split; [|reflexivity].
  split; [|split; [reflexivity | vm_compute; reflexivity]].
  unfold pattern_form. repeat split; try reflexivity; assumption.
Qed.

(* ================================================================= *)
(** ** Dry run against real run *)




(* ================================================================= *)
(** ** The further theorems at work on the example data *)



Lemma pass_requests_witness :
  method (delete_request example_cfg lib1) = "GET" \/
  exists components w1 t1 c,
    get_all_components_paginated (list attempt) scripted no_time example_cfg
      1 [one_page [lib1; lib_plain; lib3; lib2]; status_only 204]
    = Some (Return (Some components), w1, t1) /\
    In c (deletion_candidates example_cfg components) /\
    In c components /\
    delete_request example_cfg lib1 = delete_request example_cfg c.
Proof.
  assert (H : exists record' w' t,
             cleanup_job (list attempt) scripted no_time clock example_cfg 1
               initial_record
               [one_page [lib1; lib_plain; lib3; lib2]; status_only 204]
             = Some (record', w', t) /\
             In (EvRequest (delete_request example_cfg lib1)
                           (status_only 204)) t).
  { eexists _, _, _. split; [vm_compute; reflexivity|].
    repeat first [left; reflexivity | right]. }
  destruct H as [record' [w' [t [E Hin]]]].
  exact (pass_requests (list attempt) scripted no_time clock example_cfg 1
           initial_record record' _ w' t _ _ E Hin).
Defined.

Lemma fetch_aggregates_pages_witness :
  exists w' t,
    get_all_components_paginated (list attempt) scripted no_time example_cfg
      2 [page_with_token [lib1; lib2] "next"; status_only 503;
         one_page [lib3]]
    = Some (Return (Some [lib1; lib2; lib3]), w', t) /\
    [lib1; lib2; lib3] = listed t.
Proof.
  assert (H : exists w' t,
             get_all_components_paginated (list attempt) scripted no_time
               example_cfg 2
               [page_with_token [lib1; lib2] "next"; status_only 503;
                one_page [lib3]]
             = Some (Return (Some [lib1; lib2; lib3]), w', t))
    by (eexists _, _; vm_compute; reflexivity).
  destruct H as [w' [t E]]. exists w', t. split; [exact E|].
  exact (fetch_aggregates_pages (list attempt) scripted no_time example_cfg
           2 _ w' _ t E).
Defined.

Lemma fetch_invalid_json_witness :
  exists t,
    get_all_components_paginated (list attempt) scripted no_time example_cfg
      2 [page_with_token [lib1; lib2] "next"; status_only 200;
         status_only 204]
    = Some (Return None, [status_only 204], t).
Proof.
  assert (H2 : exists t2,
             make_api_request (list attempt) scripted no_time example_cfg
               "GET" (components_url example_cfg)
               (username example_cfg, password example_cfg)
               (page_params example_cfg (Some "next"))
               [status_only 200; status_only 204]
             = (Return (Some (mkResponse 200 None)), [status_only 204], t2))
    by (eexists; vm_compute; reflexivity).
  destruct H2 as [t2 H2].
  destruct (fetch_invalid_json (list attempt) scripted no_time clock
              example_cfg 1 2
              [page_with_token [lib1; lib2] "next"; status_only 200;
               status_only 204]
              [status_only 200; status_only 204]
              [status_only 204]
              (mkFetch [lib1; lib2] (Some "next") 2)
              (mkResponse 200 None) t2 initial_record
              eq_refl H2 eq_refl ltac:(lia)) as [t [E _]].
  exists t. exact E.
Defined.


Lemma cleanup_job_record_witness :
  exists record' w' t,
    cleanup_job (list attempt) scripted no_time clock example_cfg 1
                initial_record
                [one_page [lib1; lib_plain; lib3; lib2]; status_only 204]
    = Some (record', w', t) /\
    last_run_time record' = Some "2024-01-20T03:00:00" /\
    In (last_run_status record') ["success"; "partial_failure"; "failed"].
Proof.
  assert (H : exists record' w' t,
             cleanup_job (list attempt) scripted no_time clock example_cfg 1
               initial_record
               [one_page [lib1; lib_plain; lib3; lib2]; status_only 204]
             = Some (record', w', t))
    by (eexists _, _, _; vm_compute; reflexivity).
  destruct H as [record' [w' [t E]]].
  exists record', w', t. split; [exact E|].
  destruct (cleanup_job_record _ _ _ _ _ _ _ _ _ _ _ E) as [H1 [H2 _]].
  split; [exact H1 | exact H2].
Defined.

Lemma parsed_version_wellformed_witness :
  1 <= 2024 <= 9999 /\ 1 <= 2 <= 12 /\ 1 <= 29 <= 31 /\
  2024 mod 4 = 0 /\ (2024 mod 100 <> 0 \/ 2024 mod 400 = 0).
Proof.
  destruct (parsed_version_wellformed "a-b-20240229.235959-0012"
              "a-b-SNAPSHOT" (mk_datetime 2024 2 29 23 59 59) 12 eq_refl)
    as [_ [HY [HM [HD [_ [_ [Hleap _]]]]]]].
  split; [exact HY|]. split; [exact HM|]. split; [exact HD|].
  exact (Hleap eq_refl eq_refl).
Defined.

(** A remote repository whose status endpoint answers 200 while
    everything else answers 500. *)
Definition only_status_up (req : Request) (w : unit) : attempt * unit :=
  if String.eqb (url req) "http://nexus:8081/service/rest/v1/status"
  then (status_only 200, w)
  else (status_only 500, w).

Lemma health_after_pass_witness :
  exists record' t response,
    cleanup_job unit only_status_up no_time clock example_cfg 1
                initial_record tt
    = Some (record', tt, t) /\
    last_run_status record' = "failed" /\
    fst (fst (health_check unit only_status_up clock example_cfg writable
                one_gigabyte_free "03:00" "unknown" record' tt))
    = Return response /\
    http_status response = 200.
Proof.
  assert (H : exists record' t,
             cleanup_job unit only_status_up no_time clock example_cfg 1
               initial_record tt
             = Some (record', tt, t) /\
             last_run_status record' = "failed")
    by (eexists _, _; split; vm_compute; reflexivity).
  destruct H as [record' [t [E Hs]]].
  destruct (health_after_pass unit only_status_up no_time clock example_cfg
              writable one_gigabyte_free "03:00" "unknown"
              1 initial_record record' tt tt t tt
              ltac:(discriminate) ltac:(discriminate) E)
    as [response [a [w3 [Ea [Eh H200]]]]].
  exists record', t, response.
  split; [exact E|]. split; [exact Hs|].
  split; [now rewrite Eh|].
  apply H200. split; [reflexivity|]. split; [reflexivity|].
  assert (Ha : status_only 200 = a).
  { vm_compute in Ea. injection Ea as Ha _. exact Ha. }
  rewrite <- Ha. exists (mkResponse 200 None). now split.
Defined.


Lemma group_artifacts_partition_witness :
  In (("app", "lib"), [lib1; lib_plain; lib3; lib2])
     (group_artifacts [lib1; lib_plain; lib3; lib2]) /\
  (group lib3, name lib3) = ("app", "lib") /\
  [lib1; lib_plain; lib3; lib2] <> [].
Proof.
  assert (Hin : In (("app", "lib"), [lib1; lib_plain; lib3; lib2])
                   (group_artifacts [lib1; lib_plain; lib3; lib2]))
    by (left; reflexivity).
  destruct (group_artifacts_partition [lib1; lib_plain; lib3; lib2])
    as [_ [_ [Hkey Hne]]].
  split; [exact Hin|]. split.
  - apply (Hkey ("app", "lib") [lib1; lib_plain; lib3; lib2] lib3 Hin).
    right. right. left. reflexivity.
  - exact (Hne _ _ Hin).
Defined.

Lemma version_branches_partition_witness :
  In ("1.0-SNAPSHOT", [snap1; snap3; snap2])
     (version_branches [lib1; lib_plain; lib3; lib2]) /\
  parsed_as "1.0-SNAPSHOT" snap3.
Proof.
  assert (Hin : In ("1.0-SNAPSHOT", [snap1; snap3; snap2])
                   (version_branches [lib1; lib_plain; lib3; lib2]))
    by (left; reflexivity).
  split; [exact Hin|].
  destruct (version_branches_partition [lib1; lib_plain; lib3; lib2])
    as [_ [_ [Hp _]]].
  apply (Hp "1.0-SNAPSHOT" [snap1; snap3; snap2] snap3 Hin).
  right. left. reflexivity.
Defined.

Lemma health_check_verdict_witness :
  exists response,
    fst (fst (health_check unit (always 200) clock example_cfg writable
                one_gigabyte_free "03:00" "unknown"
                (mkRunRecord (Some "2024-01-20T03:00:00") "success") tt))
    = Return response /\
    http_status response = 200 /\
    health_status (content response) = "healthy".
Proof.
  destruct (health_check_verdict unit (always 200) clock example_cfg
              writable one_gigabyte_free "03:00" "unknown"
              (mkRunRecord (Some "2024-01-20T03:00:00") "success") tt)
    as [response [a [w1 [Ea [Eh [H200 [_ Hs]]]]]]].
  assert (Ha : status_only 200 = a).
  { vm_compute in Ea. injection Ea as Ha _. exact Ha. }
  assert (H : http_status response = 200).
  { apply H200. split; [reflexivity|]. split; [reflexivity|]. split.
    - rewrite <- Ha. exists (mkResponse 200 None). now split.
    - split; [|split; discriminate].
      exists "2024-01-20T03:00:00". split; [reflexivity | discriminate]. }
  exists response. split; [now rewrite Eh|]. split; [exact H|].
  rewrite Hs, H. reflexivity.
Defined.
